(** * RPS Arena: the round resolver, the round controller and the victory
    particles of [src/App.tsx], embedded in Rocq.

    Numbers: the score counters are JavaScript numbers that only ever hold
    small non-negative integers; they are modelled as [Z].  The opponent
    selector, the particle buffers and their set-up are modelled on binary64
    numbers with binary32 stores (section Binary floating point).  The round
    controller takes the draw of [Math.random()] as an exact rational, which
    loses nothing ([compChoice64_exact_draw]); the band property of the
    particle heights is proved on an exact-arithmetic copy of the frame
    loop.  The animation callbacks, which use [Math.sin] and [Math.cos],
    are modelled over the real numbers. *)

From Stdlib Require Import ZArith QArith Qround Lia Bool List.
From Stdlib Require String Reals Lra Lqa Qreals Floats.
From stdpp Require Import base list.
Import ListNotations.

Local Open Scope Z_scope.

(** ** Data model *)

(** [type Choice = 'rock' | 'paper' | 'scissors' | null] *)
Inductive Weapon : Type := rock | paper | scissors.
Definition Choice : Type := option Weapon.

(** [type Result = 'win' | 'lose' | 'draw' | null] *)
Inductive Outcome : Type := win | lose | draw.
Definition Result : Type := option Outcome.

Definition Weapon_eqb (a b : Weapon) : bool :=
  match a, b with
  | rock, rock | paper, paper | scissors, scissors => true
  | _, _ => false
  end.

Definition Outcome_eqb (a b : Outcome) : bool :=
  match a, b with
  | win, win | lose, lose | draw, draw => true
  | _, _ => false
  end.

(** JavaScript truthiness of a [Choice] / [Result]: [null] (and
    [undefined]) is falsy, every string literal of the union is truthy. *)
Definition truthy {A : Type} (x : option A) : bool :=
  match x with Some _ => true | None => false end.

(** [player === computer] on two values of type [Choice]. *)
Definition Choice_eqb (a b : Choice) : bool :=
  match a, b with
  | Some x, Some y => Weapon_eqb x y
  | None, None => true
  | _, _ => false
  end.

(** [gameResult === 'win'] and the like. *)
Definition Result_is (r : Result) (o : Outcome) : bool :=
  match r with Some x => Outcome_eqb x o | None => false end.

Definition Choice_is (c : Choice) (w : Weapon) : bool := Choice_eqb c (Some w).

(** [const CHOICES: Choice[] = ['rock', 'paper', 'scissors']] *)
Definition CHOICES : list Choice := [Some rock; Some paper; Some scissors].

(** ** The resolver *)

Definition getResult (player computer : Choice) : Result :=
  if negb (truthy player) || negb (truthy computer) then None
  else if Choice_eqb player computer then Some draw
  else if (Choice_is player rock && Choice_is computer scissors)
          || (Choice_is player paper && Choice_is computer rock)
          || (Choice_is player scissors && Choice_is computer paper)
  then Some win
  else Some lose.

(** ** The opponent selector *)

(** Array indexing [CHOICES[k]] with an integral index [k]: an index outside
    the array yields [undefined], which is falsy like [null] and is
    represented by [None]. *)
Definition index_Choice (l : list Choice) (k : Z) : Choice :=
  if k <? 0 then None
  else match l !! Z.to_nat k with
       | Some c => c
       | None => None
       end.

(** [const compChoice = CHOICES[Math.floor(Math.random() * 3)]], with the
    value [r] returned by [Math.random()] as an explicit input. *)
Definition compChoice (r : Q) : Choice :=
  index_Choice CHOICES (Qfloor (r * 3)).

(** The contract of [Math.random()]: a number in the half-open unit
    interval. *)
Definition unit_draw (r : Q) : Prop := (0 <= r)%Q /\ (r < 1)%Q.

(** ** The round controller *)

(** [useState({ wins: 0, losses: 0, draws: 0 })] *)
Record Score : Type := mkScore { wins : Z; losses : Z; draws : Z }.

(** The state held by [App]: the six [useState] cells and the callbacks
    registered with [setTimeout] and not fired yet, oldest first (all of them
    have the same delay).  A callback is represented by the [choice] its
    closure captured. *)
Record App : Type := mkApp {
  playerChoice : Choice;
  computerChoice : Choice;
  result : Result;
  score : Score;
  hoveredChoice : Choice;
  isAnimating : bool;
  timers : list Choice
}.

Definition initial : App :=
  mkApp None None None (mkScore 0 0 0) None false [].

(** The body of the callback passed to [setTimeout] in [handleChoice];
    [choice] is the captured argument of [handleChoice], [r] the value of
    [Math.random()]. *)
Definition revealCallback (choice : Choice) (r : Q) (s : App) : App :=
  let comp := compChoice r in
  let gameResult := getResult choice comp in
  let sc := score s in
  let sc' :=
    if Result_is gameResult win then mkScore (wins sc + 1) (losses sc) (draws sc)
    else if Result_is gameResult lose then mkScore (wins sc) (losses sc + 1) (draws sc)
    else mkScore (wins sc) (losses sc) (draws sc + 1) in
  mkApp (playerChoice s) comp gameResult sc' (hoveredChoice s) false (timers s).

(** [handleChoice]: guarded by [isAnimating || !choice]; otherwise raises
    [isAnimating], stores the player's choice and registers the callback. *)
Definition handleChoice (choice : Choice) (s : App) : App :=
  if isAnimating s || negb (truthy choice) then s
  else mkApp choice (computerChoice s) (result s) (score s) (hoveredChoice s)
             true (timers s ++ [choice]).

(** The timer expiring: the oldest registered callback runs. *)
Definition fireTimer (r : Q) (s : App) : App :=
  match timers s with
  | [] => s
  | choice :: rest =>
      revealCallback choice r
        (mkApp (playerChoice s) (computerChoice s) (result s) (score s)
               (hoveredChoice s) (isAnimating s) rest)
  end.

(** [resetGame] *)
Definition resetGame (s : App) : App :=
  mkApp None None None (score s) (hoveredChoice s) (isAnimating s) (timers s).

(** The three states of the round controller, read off the state cells. *)
Inductive Phase : Type := Idle | AwaitingReveal | Resolved.

Definition phase (s : App) : Phase :=
  if isAnimating s then AwaitingReveal
  else if truthy (result s) then Resolved
  else Idle.

(** What the rendered page exposes.  [Scene] renders the three clickable
    shapes under [{!playerChoice && ...}], each with
    [onClick={() => onChoice(w)}]; the PLAY AGAIN button is rendered under
    [{result && ...}] with [onClick={resetGame}]. *)
Definition choicesShown (s : App) : bool := negb (truthy (playerChoice s)).
Definition playAgainShown (s : App) : bool := truthy (result s).

Definition clickChoice (w : Weapon) (s : App) : App :=
  if choicesShown s then handleChoice (Some w) s else s.

Definition clickPlayAgain (s : App) : App :=
  if playAgainShown s then resetGame s else s.

Inductive Event : Type :=
| Select (w : Weapon)
| Reveal (r : Q)
| PlayAgain.

(** One operation of the round controller as the page can perform it: a click
    on a displayed shape, the expiry of a registered timer with a draw of
    [Math.random()], a click on the displayed button. *)
Inductive step : App -> Event -> App -> Prop :=
| step_select s w :
    choicesShown s = true ->
    step s (Select w) (handleChoice (Some w) s)
| step_reveal s r :
    unit_draw r -> timers s <> [] ->
    step s (Reveal r) (fireTimer r s)
| step_reset s :
    playAgainShown s = true ->
    step s PlayAgain (resetGame s).

Inductive run : App -> list Event -> App -> Prop :=
| run_nil s : run s [] s
| run_cons s e s' es s'' : step s e s' -> run s' es s'' -> run s (e :: es) s''.

Definition reachable (s : App) : Prop := exists es, run initial es s.

(** Number of rounds resolved along a trace. *)
Fixpoint resolved_rounds (es : list Event) : nat :=
  match es with
  | [] => 0%nat
  | Reveal _ :: es' => S (resolved_rounds es')
  | _ :: es' => resolved_rounds es'
  end.

(** A resolved round: rock was clicked on the fresh page and the timer fired
    with the draw 0 (opponent rock, a draw). *)
Definition resolved_rock_rock : App :=
  fireTimer 0 (handleChoice (Some rock) initial).

(** A pending round: rock was clicked and the timer has not fired yet. *)
Definition pending_rock : App := handleChoice (Some rock) initial.

(** Facts about the controller's state that hold between operations of the
    page, phase by phase: which cells are set, and which callback is
    pending. *)
Definition round_inv (s : App) : Prop :=
  match phase s with
  | Idle =>
      playerChoice s = None /\ computerChoice s = None /\ result s = None
      /\ timers s = []
  | AwaitingReveal =>
      exists w, playerChoice s = Some w /\ computerChoice s = None
                /\ result s = None /\ timers s = [Some w]
  | Resolved =>
      exists w o, playerChoice s = Some w /\ computerChoice s = Some o
                  /\ result s = getResult (Some w) (Some o) /\ timers s = []
  end.

Definition total (sc : Score) : Z := wins sc + losses sc + draws sc.

(** ** The victory particles *)

(** The frame loop in exact arithmetic: the same loop as [moveParticle32]
    below with the rounding left out.  It serves the band property of the
    heights only. *)

Local Open Scope Q_scope.

(** [const particleCount = 200] *)
Definition particleCount : nat := 200.



(** [6 < y], the test [pos[i * 3 + 1] > 6]. *)
Definition Qgtb (x y : Q) : bool := negb (Qle_bool x y).





(** [<VictoryParticles active={result === 'win'} />] in [Scene]. *)
Definition particlesActive (s : App) : bool := Result_is (result s) win.


Definition won_page : App :=
  fireTimer (7 # 10) (handleChoice (Some rock) initial).

Local Close Scope Q_scope.

(** ** What the page renders *)

Section Rendering.

Import String.
Local Open Scope string_scope.

(** The props shared by [Rock], [Paper], [Scissors] and [ChoiceModel].
    [onClick], when present, is [() => onChoice(w)] and is represented by
    [w]; the optional booleans are falsy when omitted. *)
Record Props : Type := mkProps {
  position : Z * Z * Z;
  color : string;
  scale : Q;
  onClick : option Weapon;
  isHovered : bool;
  isSelected : bool
}.

(** The element a [ChoiceModel] returns. *)
Inductive Shape : Type :=
| RockMesh (p : Props)
| PaperMesh (p : Props)
| ScissorsGroup (p : Props).

(** [ChoiceModel]: the [switch (choice)], whose default case returns
    [null]. *)
Definition ChoiceModel (choice : Choice) (p : Props) : option Shape :=
  match choice with
  | Some rock => Some (RockMesh p)
  | Some paper => Some (PaperMesh p)
  | Some scissors => Some (ScissorsGroup p)
  | None => None
  end.

Definition shape_props (x : Shape) : Props :=
  match x with RockMesh p | PaperMesh p | ScissorsGroup p => p end.

Definition shape_weapon (x : Shape) : Weapon :=
  match x with
  | RockMesh _ => rock
  | PaperMesh _ => paper
  | ScissorsGroup _ => scissors
  end.

(** [scale={scale * (isHovered ? 1.15 : 1)}] on the mesh or group. *)
Definition mesh_scale (p : Props) : Q :=
  (scale p * (if isHovered p then 115 # 100 else 1))%Q.

(** [emissiveIntensity={isSelected ? 1.5 : 0.3}] *)
Definition emissiveIntensity (p : Props) : Q :=
  if isSelected p then (15 # 10)%Q else (3 # 10)%Q.

(** The cursor set by [onPointerOver]:
    [onClick ? 'pointer' : 'default']. *)
Definition cursor_over (p : Props) : string :=
  if truthy (onClick p) then "pointer" else "default".

(** [Scene], the block under [{!playerChoice && ...}]: the three shapes to
    choose from. *)
Definition Scene_picks (s : App) : list (option Shape) :=
  if negb (truthy (playerChoice s)) then
    [ ChoiceModel (Some rock)
        (mkProps (-3, 0, 3) "#ff3366" (8 # 10) (Some rock)
                 (Choice_is (hoveredChoice s) rock) false);
      ChoiceModel (Some paper)
        (mkProps (0, 0, 3) "#00ff88" (8 # 10) (Some paper)
                 (Choice_is (hoveredChoice s) paper) false);
      ChoiceModel (Some scissors)
        (mkProps (3, 0, 3) "#00ccff" (8 # 10) (Some scissors)
                 (Choice_is (hoveredChoice s) scissors) false) ]
  else [].

(** [Scene], the block under [{playerChoice && computerChoice && ...}]: the
    player's shape on the left and the opponent's on the right. *)
Definition Scene_revealed (s : App) : list (option Shape) :=
  if truthy (playerChoice s) && truthy (computerChoice s) then
    [ ChoiceModel (playerChoice s)
        (mkProps (-2, 0, 0) "#ff3366" (12 # 10) None false
                 (Result_is (result s) win));
      ChoiceModel (computerChoice s)
        (mkProps (2, 0, 0) "#00ccff" (12 # 10) None false
                 (Result_is (result s) lose)) ]
  else [].

(** The shapes in the arena; a [null] child renders nothing. *)
Definition Scene_shapes (s : App) : list Shape :=
  omap id (Scene_picks s ++ Scene_revealed s)%list.

(** [ResultText]: the two ternaries for [text] and [color]. *)
Definition ResultText_text (r : Result) : string :=
  if Result_is r win then "YOU WIN!"
  else if Result_is r lose then "YOU LOSE"
  else "DRAW!".

Definition ResultText_color (r : Result) : string :=
  if Result_is r win then "#00ff88"
  else if Result_is r lose then "#ff3366"
  else "#ffcc00".

(** [{result && <ResultText result={result} />}]: the banner, as its text
    and colour. *)
Definition Scene_banner (s : App) : option (string * string) :=
  if truthy (result s)
  then Some (ResultText_text (result s), ResultText_color (result s))
  else None.

(** [App], [{!playerChoice && !isAnimating && ...}]: the instruction line
    CLICK TO CHOOSE YOUR WEAPON. *)
Definition instructionsShown (s : App) : bool :=
  negb (truthy (playerChoice s)) && negb (isAnimating s).

(** The props [Scene] gives the player's revealed shape after a win. *)
Definition winner_props : Props :=
  mkProps (-2, 0, 0) "#ff3366" (12 # 10) None false true.

End Rendering.

(** ** The handlers on their own *)

(** [handleChoice] as a closure: its guard tests the [isAnimating] of the
    render that created it ([App.tsx], a [const] of that render), not the
    cell's value at the time of the call.  [handleChoice c s] is the handler
    of the latest render: [handleChoice_at (isAnimating s) c s]. *)
Definition handleChoice_at (captured : bool) (choice : Choice) (s : App) : App :=
  if captured || negb (truthy choice) then s
  else mkApp choice (computerChoice s) (result s) (score s) (hoveredChoice s)
             true (timers s ++ [choice]).

(** A call of one of the three functions that change the state of [App],
    without regard to what the page displays: [handleChoice] with any
    argument, through the handler of any render; the expiry of the timer;
    [resetGame]. *)
Inductive call : App -> App -> Prop :=
| call_handleChoice s captured c : call s (handleChoice_at captured c s)
| call_timer s r : unit_draw r -> call s (fireTimer r s)
| call_resetGame s : call s (resetGame s).

Inductive calls : App -> App -> Prop :=
| calls_refl s : calls s s
| calls_step s s' s'' : calls s s' -> call s' s'' -> calls s s''.



(** ** The rounds of a trace *)

(** The outcome counted for a round: the resolver's output for the weapon
    selected and the opponent's pick for the draw. *)
Definition tally_round (w : Weapon) (r : Q) (sc : Score) : Score :=
  match getResult (Some w) (compChoice r) with
  | Some win => mkScore (wins sc + 1) (losses sc) (draws sc)
  | Some lose => mkScore (wins sc) (losses sc + 1) (draws sc)
  | _ => mkScore (wins sc) (losses sc) (draws sc + 1)
  end.

(** The scoreboard expected after a trace: every reveal is counted with the
    weapon of the selection before it. *)
Fixpoint tally (last : Choice) (es : list Event) (sc : Score) : Score :=
  match es with
  | [] => sc
  | Select w :: es' => tally (Some w) es' sc
  | Reveal r :: es' =>
      match last with
      | Some w => tally last es' (tally_round w r sc)
      | None => tally last es' sc
      end
  | PlayAgain :: es' => tally last es' sc
  end.

(** The kind of operation the page enables in each phase. *)
Definition enabled_in (p : Phase) (e : Event) : bool :=
  match p, e with
  | Idle, Select _ | AwaitingReveal, Reveal _ | Resolved, PlayAgain => true
  | _, _ => false
  end.

Definition next_phase (p : Phase) : Phase :=
  match p with
  | Idle => AwaitingReveal
  | AwaitingReveal => Resolved
  | Resolved => Idle
  end.

(** What holds of the state however the three functions are called. *)
Definition call_inv (s : App) : Prop :=
  hoveredChoice s = None
  /\ (isAnimating s = true -> timers s <> [])
  /\ (forall c, In c (timers s) -> c <> None)
  /\ (result s <> None <-> computerChoice s <> None).


(** ** The victory particles: successive frames *)

Local Open Scope Q_scope.


Local Close Scope Q_scope.

(** ** The animation callbacks *)

Section Animation.

Import Reals Qreals.
Local Open Scope R_scope.

(** The fields of a mesh or group that the frame callbacks write.
    [scale.setScalar(v)] sets the three scale components to [v]; one field
    stands for them.  The clock and [Math.sin], [Math.cos] are modelled over
    the real numbers. *)
Record Object3D : Type := mkObject3D {
  rotation_x : R;
  rotation_y : R;
  position_y : R;
  scalar : R
}.

(** The [useFrame] callback of [Rock]; [ref] is [ref.current], absent while
    the mesh is not mounted. *)
Definition Rock_frame (p : Props) (elapsedTime : R)
    (ref : option Object3D) : option Object3D :=
  match ref with
  | None => None
  | Some o =>
      let o := mkObject3D (rotation_x o) (rotation_y o + 0.005)
                          (position_y o) (scalar o) in
      if isSelected p then
        Some (mkObject3D (rotation_x o) (rotation_y o) (position_y o)
                (Q2R (scale p) * (1 + sin (elapsedTime * 4) * 0.1)))
      else Some o
  end.

(** The [useFrame] callback of [Paper]. *)
Definition Paper_frame (elapsedTime : R)
    (ref : option Object3D) : option Object3D :=
  match ref with
  | None => None
  | Some o =>
      Some (mkObject3D (cos (elapsedTime * 0.3) * 0.1)
                       (sin (elapsedTime * 0.5) * 0.3)
                       (position_y o) (scalar o))
  end.

(** The [useFrame] callback of [Scissors], on the group and the
    [openAngle] state cell ([useState(0.3)]). *)
Definition Scissors_frame (elapsedTime : R)
    (st : option Object3D * R) : option Object3D * R :=
  match fst st with
  | None => st
  | Some o =>
      (Some (mkObject3D (rotation_x o) (rotation_y o + 0.008)
                        (position_y o) (scalar o)),
       0.3 + sin (elapsedTime * 3) * 0.15)
  end.

Definition openAngle_initial : R := 0.3.

(** The rotations of the two blades about z:
    [rotation={[0, 0, openAngle]}] and [rotation={[0, 0, -openAngle]}]. *)
Definition blade1_rotation (openAngle : R) : R := openAngle.
Definition blade2_rotation (openAngle : R) : R := - openAngle.

(** The [useFrame] callback of [ResultText]. *)
Definition ResultText_frame (elapsedTime : R)
    (ref : option Object3D) : option Object3D :=
  match ref with
  | None => None
  | Some o =>
      Some (mkObject3D (rotation_x o) (sin (elapsedTime * 0.5) * 0.1)
                       (3 + sin (elapsedTime * 2) * 0.2) (scalar o))
  end.

(** The callback run once per frame, at the clock values [ts] in turn. *)
Definition Rock_frames (p : Props) (ts : list R)
    (ref : option Object3D) : option Object3D :=
  fold_left (fun r t => Rock_frame p t r) ts ref.

Definition Scissors_frames (ts : list R)
    (st : option Object3D * R) : option Object3D * R :=
  fold_left (fun s t => Scissors_frame t s) ts st.

End Animation.

(** ** Binary floating point *)

(** JavaScript numbers are binary64 and the cells of a [Float32Array] are
    binary32.  The opponent selector, the particle buffers and their set-up
    are modelled on the primitive binary64 numbers, with the rounding of
    every product, sum and store.  (The round controller above takes the
    draw as an exact rational; [compChoice64_exact_draw] below shows that
    every binary64 draw gives a pick that some exact draw gives.) *)

Section Binary.

Import Floats.
#[local] Set Warnings "-inexact-float".

(** [Math.floor(x)] as an integer, to index an array with: [None] for NaN
    and the infinities, which index nothing. *)
Definition Math_floor (x : float) : option Z :=
  match Prim2SF x with
  | S754_zero _ => Some 0
  | S754_finite s m e => Some (Z.shiftl (cond_Zopp s (Z.pos m)) e)
  | _ => None
  end.

(** [CHOICES[Math.floor(Math.random() * 3)]] with the binary64 value [r] of
    [Math.random()] as an explicit input. *)
Definition compChoice64 (r : float) : Choice :=
  match Math_floor (r * 3) with
  | Some k => index_Choice CHOICES k
  | None => None
  end.

(** The contract of [Math.random()], on binary64 numbers. *)
Definition unit_draw64 (r : float) : Prop :=
  (0 <=? r)%float = true /\ (r <? 1)%float = true.

(** The exact value of a finite binary64 number. *)
Definition F2Q (x : float) : Q :=
  match Prim2SF x with
  | S754_finite s m e => (inject_Z (cond_Zopp s (Z.pos m)) * 2 ^ e)%Q
  | _ => 0%Q
  end.

(** The largest binary64 numbers below 1/3 and below 2/3. *)
Definition below_third : float := 0x1.5555555555555p-2.
Definition below_two_thirds : float := 0x1.5555555555555p-1.

(** The mantissa of the binary64 number 3, which is [three_mantissa * 2^-51]. *)
Definition three_mantissa : positive := 6755399441055744.

(** The callback of [setTimeout] with a binary64 draw; the same body as
    [revealCallback]. *)
Definition revealCallback64 (choice : Choice) (r : float) (s : App) : App :=
  let comp := compChoice64 r in
  let gameResult := getResult choice comp in
  let sc := score s in
  let sc' :=
    if Result_is gameResult win then mkScore (wins sc + 1) (losses sc) (draws sc)
    else if Result_is gameResult lose then mkScore (wins sc) (losses sc + 1) (draws sc)
    else mkScore (wins sc) (losses sc) (draws sc + 1) in
  mkApp (playerChoice s) comp gameResult sc' (hoveredChoice s) false (timers s).

(** The interval of draws for which the selector picks weapon [w]. *)
Definition pick_from (w : Weapon) : float :=
  match w with rock => 0 | paper => below_third | scissors => below_two_thirds end.
Definition pick_below (w : Weapon) : float :=
  match w with rock => below_third | paper => below_two_thirds | scissors => 1 end.

(** The conversion of a number to binary32 when it is stored into a
    [Float32Array]: rounding to nearest, ties to even, with 24 bits of
    precision. *)
Definition to_binary32 (x : float) : float :=
  match Prim2SF x with
  | S754_finite s m e => SF2Prim (binary_round 24 128 s m e)
  | _ => x
  end.

(** *** The particle buffers *)

Definition buffer32_ok (a : list float) : Prop :=
  length a = (particleCount * 3)%nat.

(** [a[k]]: reading outside the array gives [undefined], which is NaN in
    arithmetic. *)
Definition rd32 (a : list float) (k : nat) : float := default nan (a !! k).

(** [a[k] = v]: the value is converted to binary32; a store outside the
    array is ignored. *)
Definition store32 (a : list float) (k : nat) (v : float) : list float :=
  <[k := to_binary32 v]> a.

Definition px32 (a : list float) (i : nat) : float := rd32 a (i * 3).
Definition py32 (a : list float) (i : nat) : float := rd32 a (i * 3 + 1).
Definition pz32 (a : list float) (i : nat) : float := rd32 a (i * 3 + 2).

(** One iteration of the loop of the frame callback, for particle [i]:
    [pos[k] += velocities.current[k]] three times, the test
    [pos[i * 3 + 1] > 6] on the stored height, and the three stores of the
    wrap.  [rnd] is the sequence of values of [Math.random()], [n] the
    number of values consumed so far. *)
Definition moveParticle32 (vel : list float) (rnd : nat -> float)
    (st : list float * nat) (i : nat) : list float * nat :=
  let '(pos, n) := st in
  let pos := store32 pos (i * 3) (rd32 pos (i * 3) + rd32 vel (i * 3)) in
  let pos := store32 pos (i * 3 + 1)
               (rd32 pos (i * 3 + 1) + rd32 vel (i * 3 + 1)) in
  let pos := store32 pos (i * 3 + 2)
               (rd32 pos (i * 3 + 2) + rd32 vel (i * 3 + 2)) in
  if (6 <? rd32 pos (i * 3 + 1))%float then
    let pos := store32 pos (i * 3 + 1) (-1) in
    let pos := store32 pos (i * 3) ((rnd n - 0.5) * 10) in
    let pos := store32 pos (i * 3 + 2) ((rnd (S n) - 0.5) * 10) in
    (pos, S (S n))
  else (pos, n).

(** [for (let i = 0; i < particleCount; i++) { ... }] *)
Definition moveParticles32 (vel : list float) (rnd : nat -> float)
    (st : list float * nat) : list float * nat :=
  fold_left (moveParticle32 vel rnd) (seq 0 particleCount) st.

(** The callback given to [useFrame] in [VictoryParticles]:
    [if (ref.current && active) { ... }]. *)
Definition VictoryParticles_frame32 (mounted active : bool)
    (vel : list float) (rnd : nat -> float)
    (st : list float * nat) : list float * nat :=
  if mounted && active then moveParticles32 vel rnd st else st.

(** The per-frame particle update of the page in controller state [s]:
    [<VictoryParticles active={result === 'win'} />]. *)
Definition Scene_frame32 (s : App) (mounted : bool)
    (vel : list float) (rnd : nat -> float)
    (st : list float * nat) : list float * nat :=
  VictoryParticles_frame32 mounted (particlesActive s) vel rnd st.

(** How many of the particles in [l] pass the ceiling in the next frame:
    those whose stored advanced height is above 6. *)
Fixpoint count_wrapping32 (vel pos : list float) (l : list nat) : nat :=
  match l with
  | [] => 0%nat
  | i :: l' =>
      ((if (6 <? to_binary32 (py32 pos i + py32 vel i))%float then 1 else 0)
       + count_wrapping32 vel pos l')%nat
  end.

(** One iteration of the loop in the [useEffect] of [VictoryParticles]: six
    values of [Math.random()] give particle [i] its position and its
    velocity. *)
Definition initParticle32 (rnd : nat -> float)
    (st : list float * list float * nat) (i : nat)
    : list float * list float * nat :=
  let '(pos, vel, n) := st in
  let pos := store32 pos (i * 3) ((rnd n - 0.5) * 10) in
  let pos := store32 pos (i * 3 + 1) (rnd (n + 1)%nat * 5) in
  let pos := store32 pos (i * 3 + 2) ((rnd (n + 2)%nat - 0.5) * 10) in
  let vel := store32 vel (i * 3) ((rnd (n + 3)%nat - 0.5) * 0.02) in
  let vel := store32 vel (i * 3 + 1) (rnd (n + 4)%nat * 0.03 + 0.01) in
  let vel := store32 vel (i * 3 + 2) ((rnd (n + 5)%nat - 0.5) * 0.02) in
  (pos, vel, (n + 6)%nat).

(** [for (let i = 0; i < particleCount; i++) { ... }] of the effect. *)
Definition initParticles32 (rnd : nat -> float)
    (st : list float * list float * nat) : list float * list float * nat :=
  fold_left (initParticle32 rnd) (seq 0 particleCount) st.

(** [new Float32Array(particleCount * 3)]: all cells 0. *)
Definition zero_buffer32 : list float := replicate (particleCount * 3) 0%float.

(** A frame in which particle 0 passes the ceiling: it is at height 5.99
    and rises by 0.02 (both as stored in binary32); all other cells are 0,
    and [Math.random()] returns 0.9 each time. *)
Definition demo_pos32 : list float := store32 zero_buffer32 1 5.99.
Definition demo_vel32 : list float := store32 zero_buffer32 1 0.02.
Definition demo_rnd64 : nat -> float := fun _ => 0.9%float.

End Binary.

(** * Theorems *)

(** ** The resolver *)

(** C1: on the nine pairs of actual choices [getResult] is the cyclic
    dominance table: equal choices draw, rock beats scissors, paper beats
    rock, scissors beats paper, and the mirrored pairs lose. *)
Theorem getResult_table :
  (forall a : Weapon, getResult (Some a) (Some a) = Some draw)
  /\ getResult (Some rock) (Some scissors) = Some win
  /\ getResult (Some scissors) (Some rock) = Some lose
  /\ getResult (Some paper) (Some rock) = Some win
  /\ getResult (Some rock) (Some paper) = Some lose
  /\ getResult (Some scissors) (Some paper) = Some win
  /\ getResult (Some paper) (Some scissors) = Some lose.
Proof.
  split; [intros []; reflexivity | repeat split; reflexivity].
Qed.

(** C5: [getResult] returns [null] as soon as one of its two arguments is
    absent, whatever the other one is (absent or not). *)
Theorem getResult_absent (x : Choice) :
  getResult None x = None /\ getResult x None = None.
Proof.
  split; [reflexivity | destruct x; reflexivity].
Qed.

Lemma getResult_defined (p c : Weapon) :
  exists o, getResult (Some p) (Some c) = Some o.
Proof. destruct p, c; eexists; reflexivity. Qed.

Lemma getResult_None_iff (p c : Choice) :
  getResult p c = None <-> p = None \/ c = None.
Proof.
  split.
  - destruct p as [p|], c as [c|]; auto.
    destruct (getResult_defined p c) as [o Ho]; rewrite Ho; discriminate.
  - intros [-> | ->]; [reflexivity | destruct p; reflexivity].
Qed.

(** ** The opponent selector *)

Lemma Qfloor_times3 (r : Q) :
  Qfloor (r * 3) = (Qnum r * 3) / Z.pos (Qden r).
Proof.
  destruct r as [n d]; cbn [Qfloor Qmult Qnum Qden].
  rewrite Pos.mul_1_r; reflexivity.
Qed.

Lemma unit_draw_Z (r : Q) :
  unit_draw r <-> 0 <= Qnum r < Z.pos (Qden r).
Proof.
  unfold unit_draw, Qle, Qlt; cbn [Qnum Qden]; lia.
Qed.

(** The index computed by the selector is 0, 1 or 2. *)
Lemma floor_index_bounds (r : Q) :
  unit_draw r -> 0 <= Qfloor (r * 3) <= 2.
Proof.
  rewrite unit_draw_Z, Qfloor_times3; intros H.
  split.
  - apply Z.div_pos; lia.
  - enough (Qnum r * 3 / Z.pos (Qden r) < 3) by lia.
    apply Z.div_lt_upper_bound; lia.
Qed.

Lemma compChoice_index (r : Q) (k : Z) :
  Qfloor (r * 3) = k -> compChoice r = index_Choice CHOICES k.
Proof. unfold compChoice; intros ->; reflexivity. Qed.

Lemma compChoice_defined (r : Q) :
  unit_draw r -> exists w, compChoice r = Some w.
Proof.
  intros U; pose proof (floor_index_bounds r U) as B.
  assert (Qfloor (r * 3) = 0 \/ Qfloor (r * 3) = 1 \/ Qfloor (r * 3) = 2)
    as [E | [E | E]] by lia;
    rewrite (compChoice_index r _ E); eexists; reflexivity.
Qed.

(** C10: for a draw [r] in [0,1) the index [floor(3 r)] is 0, 1 or 2, inside
    [CHOICES], so the opponent pick is an actual choice; hence the result
    computed by the reveal for an actual player choice is never [null]. *)
Theorem compChoice_in_bounds (r : Q) :
  unit_draw r ->
  (0 <= Qfloor (r * 3) < Z.of_nat (length CHOICES))
  /\ (Qfloor (r * 3) = 0 \/ Qfloor (r * 3) = 1 \/ Qfloor (r * 3) = 2)
  /\ compChoice r <> None
  /\ (forall (p : Weapon) (s : App),
        result (revealCallback (Some p) r s) <> None).
Proof.
  intros U.
  pose proof (floor_index_bounds r U) as B.
  destruct (compChoice_defined r U) as [w Hw].
  split; [change (Z.of_nat (length CHOICES)) with 3; lia | ].
  split; [lia | ].
  split; [congruence | ].
  intros p s; cbn [revealCallback result]; rewrite Hw.
  destruct (getResult_defined p w) as [o ->]; discriminate.
Qed.

Lemma compChoice_in_bounds_witness :
  unit_draw (1 # 2) /\ compChoice (1 # 2) <> None.
Proof.
  assert (U : unit_draw (1 # 2)) by (split; [discriminate | reflexivity]).
  split; [exact U | ].
  apply (compChoice_in_bounds (1 # 2) U).
Defined.

(** ** The round controller *)

Lemma phase_cases (s : App) :
  (phase s = Idle /\ isAnimating s = false /\ result s = None)
  \/ (phase s = AwaitingReveal /\ isAnimating s = true)
  \/ (phase s = Resolved /\ isAnimating s = false /\ result s <> None).
Proof.
  unfold phase; destruct (isAnimating s); [right; left; auto | ].
  destruct (result s); cbn; [right; right | left]; repeat split; congruence.
Qed.

Lemma round_inv_initial : round_inv initial.
Proof. cbv; auto. Qed.

Ltac inv_phase s H :=
  unfold round_inv in H;
  destruct (phase_cases s) as [(P & A & R) | [(P & A) | (P & A & R)]];
  rewrite P in H.

Lemma round_inv_step (s s' : App) (e : Event) :
  round_inv s -> step s e s' -> round_inv s'.
Proof.
  intros I St; destruct St as [s w Sh | s r U T | s Sh].
  - unfold choicesShown in Sh. inv_phase s I.
    + destruct I as (Hp & Hc & Hr & Ht).
      unfold handleChoice; rewrite A; cbn.
      unfold round_inv, phase; cbn.
      exists w; rewrite Hc, Hr, Ht; auto.
    + destruct I as (w' & Hp & _); rewrite Hp in Sh; discriminate.
    + destruct I as (w' & o & Hp & _); rewrite Hp in Sh; discriminate.
  - inv_phase s I.
    + destruct I as (_ & _ & _ & Ht); contradiction.
    + destruct I as (w & Hp & Hc & Hr & Ht).
      unfold fireTimer; rewrite Ht.
      destruct (compChoice_defined r U) as [o Ho].
      destruct (getResult_defined w o) as [g Hg].
      unfold round_inv, phase; cbn; rewrite Ho, Hg; cbn.
      exists w, o; repeat split; [exact Hp | symmetry; exact Hg].
    + destruct I as (w & o & _ & _ & _ & Ht); contradiction.
  - unfold playAgainShown in Sh. inv_phase s I.
    + rewrite R in Sh; discriminate.
    + destruct I as (w & _ & _ & Hr & _); rewrite Hr in Sh; discriminate.
    + destruct I as (w & o & _ & _ & _ & Ht).
      unfold round_inv, phase; cbn; rewrite A, Ht; auto.
Qed.

Lemma round_inv_run (s s' : App) (es : list Event) :
  round_inv s -> run s es s' -> round_inv s'.
Proof.
  intros I R; induction R as [ | s e s1 es s2 St _ IH]; [exact I | ].
  apply IH, (round_inv_step s s1 e); assumption.
Qed.

Lemma reachable_inv (s : App) : reachable s -> round_inv s.
Proof.
  intros [es R]; exact (round_inv_run _ _ _ round_inv_initial R).
Qed.

Lemma reachable_initial : reachable initial.
Proof. exists []; constructor. Qed.

Lemma run_snoc (s s1 s2 : App) (es : list Event) (e : Event) :
  run s es s1 -> step s1 e s2 -> run s (es ++ [e]) s2.
Proof.
  intros R St; induction R as [ | s e' s' es s'' St' _ IH]; cbn.
  - econstructor; [eassumption | constructor].
  - econstructor; [eassumption | auto].
Qed.

Lemma reachable_step (s s' : App) (e : Event) :
  reachable s -> step s e s' -> reachable s'.
Proof.
  intros [es R] St; exists (es ++ [e]); eapply run_snoc; eassumption.
Qed.

(** Each operation of the page is the corresponding click or timer function
    applied where the page enables it. *)
Lemma step_as_click (s s' : App) (e : Event) :
  step s e s' ->
  s' = match e with
       | Select w => clickChoice w s
       | Reveal r => fireTimer r s
       | PlayAgain => clickPlayAgain s
       end.
Proof.
  intros St; destruct St as [s w Sh | s r U T | s Sh];
    unfold clickChoice, clickPlayAgain; rewrite ?Sh; reflexivity.
Qed.

Lemma reachable_pending_rock : reachable pending_rock.
Proof.
  apply (reachable_step initial _ (Select rock) reachable_initial).
  apply step_select; reflexivity.
Qed.

Lemma unit_draw_0 : unit_draw 0.
Proof. split; [discriminate | reflexivity]. Qed.

Lemma reachable_resolved_rock_rock : reachable resolved_rock_rock.
Proof.
  apply (reachable_step pending_rock _ (Reveal 0) reachable_pending_rock).
  apply step_reveal; [exact unit_draw_0 | discriminate].
Qed.

(** The guard of [handleChoice]: nothing happens while [isAnimating] is set,
    nor for an absent choice. *)
Lemma handleChoice_guarded (c : Choice) (s : App) :
  isAnimating s = true \/ c = None -> handleChoice c s = s.
Proof.
  unfold handleChoice; intros [-> | ->]; [reflexivity | ].
  rewrite orb_true_r; reflexivity.
Qed.

Lemma handleChoice_accepts (w : Weapon) (s : App) :
  isAnimating s = false -> playerChoice (handleChoice (Some w) s) = Some w.
Proof. unfold handleChoice; intros ->; reflexivity. Qed.

Lemma phase_AwaitingReveal (s : App) :
  phase s = AwaitingReveal <-> isAnimating s = true.
Proof.
  unfold phase; destruct (isAnimating s); [tauto | ].
  destruct (truthy (result s)); split; discriminate.
Qed.

Lemma reachable_playerChoice (s : App) :
  reachable s -> phase s <> Idle -> playerChoice s <> None.
Proof.
  intros Re N; pose proof (reachable_inv s Re) as I.
  unfold round_inv in I; destruct (phase s); [congruence | | ].
  - destruct I as (w & -> & _); discriminate.
  - destruct I as (w & o & -> & _); discriminate.
Qed.

(** C2, as the code has it: the handler ignores every call made while the
    controller awaits the reveal ([isAnimating] set).  In the resolved state
    its guard lets the call through; there the page keeps selection out: the
    clickable shapes are rendered only while the player choice is absent, so
    in every reachable state other than idle a click on a choice changes
    nothing, in particular not the player choice. *)
Theorem selection_ignored_outside_idle (c : Choice) (w : Weapon) (s : App) :
  reachable s ->
  (phase s = AwaitingReveal -> handleChoice c s = s)
  /\ (phase s <> Idle ->
      choicesShown s = false /\ clickChoice w s = s
      /\ playerChoice (clickChoice w s) = playerChoice s
      /\ forall s', ~ step s (Select w) s').
Proof.
  intros Re; split.
  - intros P; apply handleChoice_guarded; left.
    apply phase_AwaitingReveal; exact P.
  - intros N; pose proof (reachable_playerChoice s Re N) as Hp.
    assert (Sh : choicesShown s = false).
    { unfold choicesShown; destruct (playerChoice s); [reflexivity | congruence]. }
    assert (E : clickChoice w s = s) by (unfold clickChoice; rewrite Sh; reflexivity).
    repeat split; [exact Sh | exact E | rewrite E; reflexivity | ].
    intros s' St; inversion St; congruence.
Qed.

Lemma selection_ignored_outside_idle_witness :
  reachable resolved_rock_rock
  /\ (phase resolved_rock_rock <> Idle ->
      playerChoice (clickChoice paper resolved_rock_rock) = Some rock).
Proof.
  split; [exact reachable_resolved_rock_rock | ].
  intros N.
  destruct (selection_ignored_outside_idle (Some paper) paper
              resolved_rock_rock reachable_resolved_rock_rock) as [_ H].
  destruct (H N) as (_ & _ & E & _).
  rewrite E; reflexivity.
Defined.

(** C2 as stated fails in the resolved state: after a resolved round with
    player choice rock, a call of the handler with paper replaces the player
    choice. *)
Lemma handleChoice_resolved_replaces :
  reachable resolved_rock_rock
  /\ phase resolved_rock_rock = Resolved
  /\ playerChoice resolved_rock_rock = Some rock
  /\ playerChoice (handleChoice (Some paper) resolved_rock_rock) = Some paper
  /\ ~ (forall (c : Choice) (s : App),
          reachable s -> phase s = AwaitingReveal \/ phase s = Resolved ->
          playerChoice (handleChoice c s) = playerChoice s).
Proof.
  split; [exact reachable_resolved_rock_rock | ].
  repeat split; try reflexivity.
  intros H.
  specialize (H (Some paper) resolved_rock_rock reachable_resolved_rock_rock
                (or_intror eq_refl)).
  discriminate H.
Qed.

(** The score update of the callback, for an actual captured choice and an
    actual opponent pick. *)
Lemma revealCallback_score (p : Weapon) (r : Q) (s : App) :
  unit_draw r ->
  let s' := revealCallback (Some p) r s in
  let g := getResult (Some p) (compChoice r) in
  result s' = g
  /\ ((g = Some win /\ wins (score s') = wins (score s) + 1
       /\ losses (score s') = losses (score s)
       /\ draws (score s') = draws (score s))
      \/ (g = Some lose /\ wins (score s') = wins (score s)
          /\ losses (score s') = losses (score s) + 1
          /\ draws (score s') = draws (score s))
      \/ (g = Some draw /\ wins (score s') = wins (score s)
          /\ losses (score s') = losses (score s)
          /\ draws (score s') = draws (score s) + 1)).
Proof.
  intros U; destruct (compChoice_defined r U) as [o Ho].
  cbn zeta; unfold revealCallback; cbn [result score]; rewrite Ho.
  split; [reflexivity | ].
  destruct p, o; cbn; auto 10.
Qed.

Lemma reveal_step_shape (s s' : App) (r : Q) :
  reachable s -> step s (Reveal r) s' ->
  unit_draw r /\ phase s = AwaitingReveal
  /\ exists w, playerChoice s = Some w /\ computerChoice s = None
               /\ s' = revealCallback (Some w) r
                         (mkApp (playerChoice s) (computerChoice s) (result s)
                                (score s) (hoveredChoice s) (isAnimating s) []).
Proof.
  intros Re St; inversion St as [ | s0 r0 U T | ]; subst.
  split; [exact U | ].
  pose proof (reachable_inv s Re) as I; unfold round_inv in I.
  destruct (phase s).
  - destruct I as (_ & _ & _ & Ht); contradiction.
  - split; [reflexivity | ].
    destruct I as (w & Hp & Hc & _ & Ht); exists w.
    unfold fireTimer; rewrite Ht; auto.
  - destruct I as (w & o & _ & _ & _ & Ht); contradiction.
Qed.

(** C3: the reveal of a round resolves it with the resolver's output for
    the round's player choice and opponent choice, and adds 1 to exactly the
    counter of that output (wins for win, losses for lose, draws for draw),
    leaving the other two counters as they were. *)
Theorem reveal_increments_one_counter (s s' : App) (r : Q) :
  reachable s -> step s (Reveal r) s' ->
  let g := getResult (playerChoice s') (computerChoice s') in
  playerChoice s' = playerChoice s
  /\ result s' = g
  /\ ((g = Some win /\ wins (score s') = wins (score s) + 1
       /\ losses (score s') = losses (score s)
       /\ draws (score s') = draws (score s))
      \/ (g = Some lose /\ wins (score s') = wins (score s)
          /\ losses (score s') = losses (score s) + 1
          /\ draws (score s') = draws (score s))
      \/ (g = Some draw /\ wins (score s') = wins (score s)
          /\ losses (score s') = losses (score s)
          /\ draws (score s') = draws (score s) + 1)).
Proof.
  intros Re St.
  destruct (reveal_step_shape s s' r Re St) as (U & _ & w & Hp & _ & ->).
  cbn zeta.
  match goal with |- context [revealCallback _ _ ?t] =>
    pose proof (revealCallback_score w r t U) as H end.
  cbn zeta in H; destruct H as [_ H].
  cbn [revealCallback playerChoice computerChoice result score] in *.
  rewrite Hp; auto.
Qed.

Lemma reveal_increments_one_counter_witness :
  let s' := fireTimer (7 # 10) pending_rock in
  result s' = Some win
  /\ score s' = mkScore 1 0 0.
Proof.
  assert (U : unit_draw (7 # 10)) by (split; [discriminate | reflexivity]).
  assert (St : step pending_rock (Reveal (7 # 10)) (fireTimer (7 # 10) pending_rock))
    by (apply step_reveal; [exact U | discriminate]).
  pose proof (reveal_increments_one_counter _ _ _ reachable_pending_rock St) as H.
  cbn zeta in *; destruct H as (_ & Hr & _).
  split; [exact Hr | reflexivity].
Defined.

(** The two scenarios of the specification. *)
Example scenario_rock_scissors :
  let s' := fireTimer (7 # 10) (handleChoice (Some rock) initial) in
  computerChoice s' = Some scissors /\ result s' = Some win
  /\ score s' = mkScore 1 0 0.
Proof. repeat split. Qed.

Example scenario_paper_paper :
  let s' := fireTimer (1 # 2) (handleChoice (Some paper) initial) in
  computerChoice s' = Some paper /\ result s' = Some draw
  /\ score s' = mkScore 0 0 1.
Proof. repeat split. Qed.

Lemma result_iff_choices (s : App) :
  round_inv s ->
  (result s <> None <-> playerChoice s <> None /\ computerChoice s <> None).
Proof.
  unfold round_inv; destruct (phase s).
  - intros (-> & -> & -> & _); tauto.
  - intros (w & -> & -> & -> & _); tauto.
  - intros (w & o & -> & -> & -> & _).
    destruct (getResult_defined w o) as [g ->]; split; [split | ]; discriminate.
Qed.

Lemma step_computerChoice (s s' : App) (e : Event) :
  reachable s -> step s e s' ->
  match e with
  | Select _ => computerChoice s = None /\ computerChoice s' = None
  | Reveal _ => computerChoice s = None /\ computerChoice s' <> None
  | PlayAgain => computerChoice s <> None /\ computerChoice s' = None
  end.
Proof.
  intros Re St; pose proof (reachable_inv s Re) as I.
  destruct e as [w | r | ].
  - inversion St as [s0 w0 Sh | | ]; subst.
    unfold choicesShown in Sh; unfold round_inv in I.
    destruct (phase_cases s) as [(P & A & R) | [(P & A) | (P & A & R)]];
      rewrite P in I.
    + destruct I as (_ & Hc & _); unfold handleChoice; rewrite A; cbn; auto.
    + destruct I as (w' & Hp & _); rewrite Hp in Sh; discriminate.
    + destruct I as (w' & o & Hp & _); rewrite Hp in Sh; discriminate.
  - destruct (reveal_step_shape s s' r Re St) as (U & _ & w & _ & Hc & ->).
    split; [exact Hc | ].
    cbn [revealCallback computerChoice].
    destruct (compChoice_defined r U) as [o ->]; discriminate.
  - inversion St as [ | | s0 Sh]; subst.
    split; [ | reflexivity].
    apply (result_iff_choices s I).
    unfold playAgainShown in Sh; destruct (result s); [discriminate | discriminate].
Qed.

(** Once set, the opponent choice stays until the next reset. *)
Lemma computerChoice_kept (s s' : App) (es : list Event) (o : Weapon) :
  reachable s -> run s es s' -> ~ In PlayAgain es ->
  computerChoice s = Some o -> computerChoice s' = Some o.
Proof.
  intros Re R; induction R as [ | s e s1 es s2 St _ IH]; intros N Hc;
    [exact Hc | ].
  pose proof (step_computerChoice s s1 e Re St) as H.
  destruct e as [w | r | ].
  - destruct H as [H _]; congruence.
  - destruct H as [H _]; congruence.
  - exfalso; apply N; left; reflexivity.
Qed.

(** C4: in every state the page can reach, the result is set exactly when
    both the player choice and the opponent choice are set; the opponent
    choice is written by a reveal only while it is absent, a selection
    leaves it alone, only the reset clears it, and once set it keeps its
    value along every run without a reset. *)
Theorem result_iff_both_choices (s : App) :
  reachable s ->
  (result s <> None <-> playerChoice s <> None /\ computerChoice s <> None)
  /\ (forall e s', step s e s' ->
        match e with
        | Select _ => computerChoice s = None /\ computerChoice s' = None
        | Reveal _ => computerChoice s = None /\ computerChoice s' <> None
        | PlayAgain => computerChoice s <> None /\ computerChoice s' = None
        end)
  /\ (forall es s' o, run s es s' -> ~ In PlayAgain es ->
        computerChoice s = Some o -> computerChoice s' = Some o).
Proof.
  intros Re; split; [apply result_iff_choices, reachable_inv, Re | ].
  split.
  - intros e s'; apply step_computerChoice, Re.
  - intros es s' o; apply computerChoice_kept, Re.
Qed.

Lemma result_iff_both_choices_witness :
  reachable resolved_rock_rock
  /\ (result resolved_rock_rock <> None <->
      playerChoice resolved_rock_rock <> None
      /\ computerChoice resolved_rock_rock <> None).
Proof.
  split; [exact reachable_resolved_rock_rock | ].
  apply (result_iff_both_choices resolved_rock_rock reachable_resolved_rock_rock).
Defined.

(** The rendering guards matter: were [resetGame] run while the reveal is
    pending (the page shows no button then), the timer would resolve the
    round with the player choice already cleared. *)
Remark resetGame_while_pending :
  let s := fireTimer 0 (resetGame pending_rock) in
  playAgainShown pending_rock = false
  /\ result s = Some draw /\ playerChoice s = None.
Proof. repeat split. Qed.

(** C6: [resetGame] applied in the resolved state yields the idle state:
    player choice, opponent choice and result are all absent afterwards,
    and the three counters are the ones from before. *)
Theorem resetGame_resolved_to_idle (s : App) :
  phase s = Resolved ->
  phase (resetGame s) = Idle
  /\ playerChoice (resetGame s) = None
  /\ computerChoice (resetGame s) = None
  /\ result (resetGame s) = None
  /\ wins (score (resetGame s)) = wins (score s)
  /\ losses (score (resetGame s)) = losses (score s)
  /\ draws (score (resetGame s)) = draws (score s)
  /\ step s PlayAgain (resetGame s).
Proof.
  intros P.
  destruct (phase_cases s) as [(P' & _) | [(P' & _) | (_ & A & R)]];
    try congruence.
  repeat split.
  - unfold phase; cbn; rewrite A; reflexivity.
  - apply step_reset; unfold playAgainShown.
    destruct (result s); [reflexivity | congruence].
Qed.

Lemma resetGame_resolved_to_idle_witness :
  phase resolved_rock_rock = Resolved
  /\ phase (resetGame resolved_rock_rock) = Idle
  /\ score (resetGame resolved_rock_rock) = mkScore 0 0 1.
Proof.
  split; [reflexivity | ].
  split; [ | reflexivity].
  apply (resetGame_resolved_to_idle resolved_rock_rock eq_refl).
Defined.

(** Every operation either leaves the score alone or, for a reveal, adds 1
    to one counter; this holds in every state. *)
Lemma step_score (s s' : App) (e : Event) :
  step s e s' ->
  wins (score s) <= wins (score s')
  /\ losses (score s) <= losses (score s')
  /\ draws (score s) <= draws (score s')
  /\ match e with
     | Reveal _ => total (score s') = total (score s) + 1
     | _ => score s' = score s
     end.
Proof.
  intros St; destruct St as [s w Sh | s r U T | s Sh].
  - unfold handleChoice; destruct (isAnimating s || negb (truthy (Some w)));
      cbn; repeat split; lia.
  - unfold fireTimer; destruct (timers s) as [ | c rest]; [contradiction | ].
    unfold revealCallback, total; cbn [score].
    destruct (Result_is _ win); [cbn; lia | ].
    destruct (Result_is _ lose); cbn; lia.
  - cbn; repeat split; lia.
Qed.

Lemma run_score (s s' : App) (es : list Event) :
  run s es s' ->
  wins (score s) <= wins (score s')
  /\ losses (score s) <= losses (score s')
  /\ draws (score s) <= draws (score s')
  /\ total (score s') = total (score s) + Z.of_nat (resolved_rounds es).
Proof.
  intros R; induction R as [ | s e s1 es s2 St _ IH]; [cbn; lia | ].
  pose proof (step_score s s1 e St) as (Hw & Hl & Hd & He).
  destruct IH as (Iw & Il & Id & It).
  repeat split; try lia.
  destruct e; cbn [resolved_rounds]; try rewrite He in It; lia.
Qed.

(** C7: along every run of the page from its initial state the three
    counters are non-negative; no operation (select, reveal, reset) lowers
    a counter, so none puts a positive counter back to zero; select and
    reset leave the score as it is and a reveal adds 1 in all, so the sum of
    the counters is the number of rounds resolved so far. *)
Theorem score_counters_monotone (es : list Event) (s s' : App) (e : Event) :
  run initial es s -> step s e s' ->
  (0 <= wins (score s) /\ 0 <= losses (score s) /\ 0 <= draws (score s))
  /\ (wins (score s) <= wins (score s')
      /\ losses (score s) <= losses (score s')
      /\ draws (score s) <= draws (score s'))
  /\ ((0 < wins (score s) -> 0 < wins (score s'))
      /\ (0 < losses (score s) -> 0 < losses (score s'))
      /\ (0 < draws (score s) -> 0 < draws (score s')))
  /\ match e with
     | Reveal _ => total (score s') = total (score s) + 1
     | _ => score s' = score s
     end
  /\ total (score s) = Z.of_nat (resolved_rounds es)
  /\ total (score s') = Z.of_nat (resolved_rounds (es ++ [e])).
Proof.
  intros R St.
  pose proof (run_score _ _ _ R) as (Rw & Rl & Rd & Rt).
  pose proof (step_score _ _ _ St) as (Hw & Hl & Hd & He).
  pose proof (run_score _ _ _ (run_snoc _ _ _ _ _ R St)) as (_ & _ & _ & Rt').
  cbn in Rw, Rl, Rd, Rt, Rt'.
  repeat split; try lia; assumption.
Qed.

Lemma score_counters_monotone_witness :
  total (score resolved_rock_rock) = 1
  /\ score (resetGame resolved_rock_rock) = score resolved_rock_rock.
Proof.
  assert (R : run initial [Select rock; Reveal 0] resolved_rock_rock).
  { apply (run_snoc initial pending_rock _ [Select rock] (Reveal 0)).
    - apply (run_snoc initial initial _ [] (Select rock)); [constructor | ].
      apply step_select; reflexivity.
    - apply step_reveal; [exact unit_draw_0 | discriminate]. }
  assert (St : step resolved_rock_rock PlayAgain (resetGame resolved_rock_rock))
    by (apply step_reset; reflexivity).
  destruct (score_counters_monotone _ _ _ _ R St) as (_ & _ & _ & E & T & _).
  split; [exact T | exact E].
Defined.

(** ** The victory particles *)

Section Particles.

Local Open Scope Q_scope.

Variables (vel : list Q) (rnd : nat -> Q).











Lemma seq_split_at (i m : nat) :
  (i < m)%nat -> seq 0 m = seq 0 i ++ i :: seq (S i) (m - S i).
Proof.
  intros H.
  replace m with (i + S (m - S i))%nat at 1 by lia.
  rewrite seq_app; reflexivity.
Qed.


Lemma particlesActive_win (s : App) :
  particlesActive s = true <-> result s = Some win.
Proof.
  unfold particlesActive; destruct (result s) as [[ | | ] | ]; cbn;
    split; congruence.
Qed.

End Particles.

(** * Further properties of the code *)

(** ** The resolver *)

(** X1: the resolver is consistent between the two sides: one side wins
    exactly when the other side, with the arguments swapped, loses; a draw
    and an absent result are the same from both sides; and two present
    choices draw exactly when they are equal. *)
Theorem getResult_mirror (a b : Choice) :
  (getResult a b = Some win <-> getResult b a = Some lose)
  /\ (getResult a b = Some lose <-> getResult b a = Some win)
  /\ (getResult a b = Some draw <-> getResult b a = Some draw)
  /\ (getResult a b = None <-> getResult b a = None)
  /\ (getResult a b = Some draw <-> a = b /\ a <> None).
Proof.
  destruct a as [[ | | ] | ], b as [[ | | ] | ]; cbn;
    repeat split; intros; try discriminate; try tauto;
    match goal with
    | H : _ /\ _ |- _ => destruct H; congruence
    end.
Qed.

(** X2: no weapon dominates: each weapon beats exactly one weapon and loses
    to exactly one, these two differ, and beating goes round in a circle
    (if a beats b and b beats c, then c beats a). *)
Theorem getResult_cycle (a : Weapon) :
  (exists b, getResult (Some a) (Some b) = Some win
             /\ forall x, getResult (Some a) (Some x) = Some win -> x = b)
  /\ (exists c, getResult (Some a) (Some c) = Some lose
                /\ forall x, getResult (Some a) (Some x) = Some lose -> x = c)
  /\ (forall b c, getResult (Some a) (Some b) = Some win ->
                  getResult (Some b) (Some c) = Some win ->
                  getResult (Some c) (Some a) = Some win)
  /\ getResult (Some a) (Some a) = Some draw.
Proof.
  split; [ | split; [ | split; [ | destruct a; reflexivity]]].
  - destruct a; [exists scissors | exists rock | exists paper];
      (split; [reflexivity | intros []; cbn; congruence]).
  - destruct a; [exists paper | exists scissors | exists rock];
      (split; [reflexivity | intros []; cbn; congruence]).
  - intros b c; destruct a, b, c; cbn; congruence.
Qed.

(** ** The handlers on their own *)

Lemma handleChoice_current (c : Choice) (s : App) :
  handleChoice c s = handleChoice_at (isAnimating s) c s.
Proof. reflexivity. Qed.

Lemma call_inv_initial : call_inv initial.
Proof.
  unfold call_inv; cbn; repeat split; try discriminate; try tauto.
Qed.

Lemma call_inv_call (s s' : App) : call_inv s -> call s s' -> call_inv s'.
Proof.
  intros (Hh & Ha & Ht & Hr) C; destruct C as [s captured c | s r U | s].
  - unfold handleChoice_at.
    destruct (captured || negb (truthy c)) eqn:G; [repeat split; tauto | ].
    apply orb_false_elim in G; destruct G as [_ G].
    destruct c as [w | ]; [ | discriminate G].
    unfold call_inv; cbn.
    split; [exact Hh | ]. split; [intros _; destruct (timers s); discriminate | ].
    split; [ | exact Hr].
    intros c Hc; apply in_app_or in Hc; destruct Hc as [Hc | [<- | []]];
      [apply Ht; exact Hc | discriminate].
  - unfold fireTimer. destruct (timers s) as [ | c rest] eqn:E;
      [repeat split; try rewrite E; tauto | ].
    destruct c as [w | ]; [ | destruct (Ht None (or_introl eq_refl) eq_refl)].
    destruct (compChoice_defined r U) as [o Ho].
    destruct (getResult_defined w o) as [g Hg].
    unfold call_inv; cbn. rewrite Ho, Hg.
    split; [exact Hh | ]. split; [discriminate | ].
    split; [intros c Hc; apply Ht; right; exact Hc | ].
    split; discriminate.
  - unfold call_inv; cbn. repeat split; tauto.
Qed.

Lemma call_inv_calls (s s' : App) : call_inv s -> calls s s' -> call_inv s'.
Proof.
  intros I C; induction C as [ | s s1 s2 C IH St]; [exact I | ].
  apply (call_inv_call s1 s2); auto.
Qed.



Lemma step_call (s s' : App) (e : Event) : step s e s' -> call s s'.
Proof.
  intros St; destruct St as [s w Sh | s r U T | s Sh].
  - exact (call_handleChoice s (isAnimating s) (Some w)).
  - apply call_timer; exact U.
  - apply call_resetGame.
Qed.

Lemma calls_trans (s s1 s2 : App) : calls s s1 -> calls s1 s2 -> calls s s2.
Proof.
  intros C1 C2; induction C2 as [ | s1 s2 s3 C2 IH St]; [exact C1 | ].
  econstructor; [apply IH; exact C1 | exact St].
Qed.

Lemma run_calls (s s' : App) (es : list Event) : run s es s' -> calls s s'.
Proof.
  intros R; induction R as [ | s e s1 es s2 St _ IH]; [constructor | ].
  apply (calls_trans s s1 s2); [ | exact IH].
  econstructor; [constructor | exact (step_call _ _ _ St)].
Qed.

Lemma calls_pending_rock : calls initial pending_rock.
Proof.
  econstructor; [constructor | ].
  exact (call_handleChoice initial false (Some rock)).
Qed.



(** ** The life cycle of a round *)

Lemma step_phase (s s' : App) (e : Event) :
  round_inv s -> step s e s' ->
  enabled_in (phase s) e = true /\ phase s' = next_phase (phase s).
Proof.
  intros I St; pose proof (round_inv_step s s' e I St) as I'.
  destruct St as [s w Sh | s r U T | s Sh].
  - unfold choicesShown in Sh. inv_phase s I.
    + rewrite P; split; [reflexivity | ].
      unfold handleChoice; rewrite A; cbn; reflexivity.
    + destruct I as (w' & Hp & _); rewrite Hp in Sh; discriminate.
    + destruct I as (w' & o & Hp & _); rewrite Hp in Sh; discriminate.
  - inv_phase s I.
    + destruct I as (_ & _ & _ & Ht); contradiction.
    + rewrite P; split; [reflexivity | ].
      destruct I as (w & _ & _ & _ & Ht).
      unfold fireTimer; rewrite Ht.
      destruct (compChoice_defined r U) as [o Ho].
      destruct (getResult_defined w o) as [g Hg].
      unfold phase; cbn; rewrite Ho, Hg; reflexivity.
    + destruct I as (w & o & _ & _ & _ & Ht); contradiction.
  - unfold playAgainShown in Sh. inv_phase s I.
    + rewrite R in Sh; discriminate.
    + destruct I as (w & _ & _ & Hr & _); rewrite Hr in Sh; discriminate.
    + rewrite P; split; [reflexivity | ].
      unfold phase; cbn; rewrite A; reflexivity.
Qed.

Lemma run_phase (s s' : App) (es : list Event) :
  round_inv s -> run s es s' ->
  phase s' = Nat.iter (length es) next_phase (phase s).
Proof.
  intros I R; induction R as [ | s e s1 es s2 St _ IH]; [reflexivity | ].
  rewrite (IH (round_inv_step _ _ _ I St)).
  destruct (step_phase s s1 e I St) as [_ ->].
  cbn [length]; rewrite Nat.iter_succ_r; reflexivity.
Qed.

(** X5: the page moves through the phases in a circle.  An operation is
    possible only in its own phase (select in idle, reveal while awaiting,
    play again when resolved) and leads to the next phase; so after any run
    of [n] operations from the start the phase is the [n]-th successor of
    idle, and rounds never overlap. *)
Theorem page_phases_cycle (es : list Event) (s s' : App) (e : Event) :
  run initial es s -> step s e s' ->
  enabled_in (phase s) e = true
  /\ phase s' = next_phase (phase s)
  /\ phase s = Nat.iter (length es) next_phase Idle
  /\ (forall e2 s2, step s e2 s2 ->
        match e, e2 with
        | Select _, Select _ | Reveal _, Reveal _ | PlayAgain, PlayAgain => True
        | _, _ => False
        end).
Proof.
  intros R St.
  pose proof (round_inv_run _ _ _ round_inv_initial R) as I.
  destruct (step_phase s s' e I St) as [En Nx].
  split; [exact En | ]. split; [exact Nx | ].
  split; [exact (run_phase _ _ _ round_inv_initial R) | ].
  intros e2 s2 St2; destruct (step_phase s s2 e2 I St2) as [En2 _].
  destruct (phase s), e, e2; cbn in En, En2; try discriminate; exact Logic.I.
Qed.

Lemma page_phases_cycle_witness :
  phase (fireTimer 0 pending_rock) = Resolved.
Proof.
  assert (R : run initial [Select rock] pending_rock).
  { econstructor; [apply step_select; reflexivity | constructor]. }
  assert (St : step pending_rock (Reveal 0) (fireTimer 0 pending_rock))
    by (apply step_reveal; [exact unit_draw_0 | discriminate]).
  destruct (page_phases_cycle _ _ _ _ R St) as (_ & Nx & _).
  exact Nx.
Defined.

(** X6: the page is never stuck: in every reachable state the operation of
    the current phase is available, for every weapon in idle and for every
    draw of [Math.random()] while the reveal is awaited. *)
Theorem page_never_stuck (s : App) :
  reachable s ->
  match phase s with
  | Idle => forall w, step s (Select w) (clickChoice w s)
                      /\ playerChoice (clickChoice w s) = Some w
  | AwaitingReveal => forall r, unit_draw r -> step s (Reveal r) (fireTimer r s)
  | Resolved => step s PlayAgain (clickPlayAgain s)
  end.
Proof.
  intros Re; pose proof (reachable_inv s Re) as I.
  inv_phase s I; rewrite P.
  - destruct I as (Hp & _); intros w.
    assert (Sh : choicesShown s = true) by (unfold choicesShown; rewrite Hp; reflexivity).
    unfold clickChoice; rewrite Sh.
    split; [apply step_select; exact Sh | ].
    unfold handleChoice; rewrite A; reflexivity.
  - destruct I as (w & _ & _ & _ & Ht); intros r U.
    apply step_reveal; [exact U | rewrite Ht; discriminate].
  - assert (Sh : playAgainShown s = true)
      by (unfold playAgainShown; destruct (result s); [reflexivity | congruence]).
    unfold clickPlayAgain; rewrite Sh; apply step_reset; exact Sh.
Qed.

Lemma page_never_stuck_witness :
  step resolved_rock_rock PlayAgain (clickPlayAgain resolved_rock_rock).
Proof.
  exact (page_never_stuck resolved_rock_rock reachable_resolved_rock_rock).
Defined.

Lemma revealCallback_tally (w : Weapon) (r : Q) (s : App) :
  score (revealCallback (Some w) r s) = tally_round w r (score s).
Proof.
  unfold revealCallback, tally_round; cbn [score].
  destruct (getResult (Some w) (compChoice r)) as [[ | | ] | ]; reflexivity.
Qed.

(** X7: a complete round, played from a reachable idle state (click on a
    shape, reveal with a draw in [0,1), click on PLAY AGAIN), brings the page
    back to the very state it started from, except for the score, in which
    the outcome of the round has been counted. *)
Theorem round_trip_to_idle (s : App) (w : Weapon) (r : Q) :
  reachable s -> phase s = Idle -> unit_draw r ->
  let s3 := clickPlayAgain (fireTimer r (clickChoice w s)) in
  s3 = mkApp (playerChoice s) (computerChoice s) (result s)
             (tally_round w r (score s))
             (hoveredChoice s) (isAnimating s) (timers s)
  /\ phase s3 = Idle
  /\ total (score s3) = total (score s) + 1.
Proof.
  intros Re P U; pose proof (reachable_inv s Re) as I.
  unfold round_inv in I; rewrite P in I; destruct I as (Hp & Hc & Hr & Ht).
  destruct (phase_cases s) as [(_ & A & _) | [(P' & _) | (P' & _)]];
    try congruence.
  destruct (compChoice_defined r U) as [o Ho].
  destruct (getResult_defined w o) as [g Hg].
  cbn zeta.
  unfold clickChoice, choicesShown, handleChoice; rewrite Hp, A, Ht; cbn.
  unfold fireTimer; cbn.
  unfold clickPlayAgain, playAgainShown; cbn; rewrite Ho, Hg; cbn.
  rewrite Hc, Hr.
  split; [ | split].
  - unfold resetGame; cbn. f_equal.
    unfold tally_round; rewrite Ho, Hg.
    destruct g; reflexivity.
  - reflexivity.
  - rewrite ?Ho, ?Hg; unfold total; destruct g; cbn; lia.
Qed.

Lemma round_trip_to_idle_witness :
  clickPlayAgain (fireTimer (7 # 10) (clickChoice rock initial))
  = mkApp None None None (mkScore 1 0 0) None false [].
Proof.
  assert (U : unit_draw (7 # 10)) by (split; [discriminate | reflexivity]).
  destruct (round_trip_to_idle initial rock (7 # 10) reachable_initial
              eq_refl U) as (E & _).
  exact E.
Defined.

Lemma run_tally (s s' : App) (es : list Event) (last : Choice) :
  round_inv s -> run s es s' ->
  (phase s = AwaitingReveal -> last = playerChoice s) ->
  score s' = tally last es (score s).
Proof.
  intros I R; revert last.
  induction R as [ | s e s1 es s2 St _ IH]; intros last L; [reflexivity | ].
  pose proof (round_inv_step _ _ _ I St) as I1.
  destruct (step_phase s s1 e I St) as [En Nx].
  destruct St as [s w Sh | s r U T | s Sh]; cbn [tally].
  - destruct (phase s) eqn:P; try discriminate En.
    destruct (phase_cases s) as [(_ & A & _) | [(P' & _) | (P' & _)]];
      try congruence.
    rewrite (IH I1 (Some w)).
    + unfold handleChoice; rewrite A; reflexivity.
    + intros _; unfold handleChoice; rewrite A; reflexivity.
  - destruct (phase s) eqn:P; try discriminate En.
    unfold round_inv in I; rewrite P in I.
    destruct I as (w & Hp & _ & _ & Ht).
    rewrite (L eq_refl), Hp.
    rewrite (IH I1 (Some w)).
    + unfold fireTimer; rewrite Ht, revealCallback_tally; reflexivity.
    + rewrite Nx; discriminate.
  - destruct (phase s) eqn:P; try discriminate En.
    rewrite (IH I1 last); [reflexivity | rewrite Nx; discriminate].
Qed.

(** X8: the scoreboard is the tally of the rounds played: after any run of
    the page from its start, each of the three counters is the number of
    reveals whose outcome, computed by the resolver from the weapon selected
    before and the opponent's pick, was the counter's. *)
Theorem score_is_tally (es : list Event) (s : App) :
  run initial es s -> score s = tally None es (mkScore 0 0 0).
Proof.
  intros R.
  apply (run_tally initial s es None round_inv_initial R).
  discriminate.
Qed.

Lemma score_is_tally_witness :
  score resolved_rock_rock = mkScore 0 0 1.
Proof.
  assert (R : run initial [Select rock; Reveal 0] resolved_rock_rock).
  { econstructor; [apply step_select; reflexivity | ].
    econstructor; [ | constructor].
    apply step_reveal; [exact unit_draw_0 | discriminate]. }
  exact (score_is_tally _ _ R).
Defined.

(** ** What the page renders *)

Section RenderingFacts.

Import String.
Local Open Scope string_scope.

Lemma reachable_calls (s : App) : reachable s -> calls initial s.
Proof. intros [es R]; exact (run_calls _ _ _ R). Qed.

Lemma calls_hoveredChoice (s : App) : calls initial s -> hoveredChoice s = None.
Proof.
  intros C; exact (proj1 (call_inv_calls _ _ call_inv_initial C)).
Qed.

(** The shapes in the arena, phase by phase. *)
Lemma Scene_shapes_phase (s : App) :
  reachable s ->
  match phase s with
  | Idle =>
      Scene_shapes s =
      [ RockMesh (mkProps (-3, 0, 3) "#ff3366" (8 # 10) (Some rock) false false);
        PaperMesh (mkProps (0, 0, 3) "#00ff88" (8 # 10) (Some paper) false false);
        ScissorsGroup
          (mkProps (3, 0, 3) "#00ccff" (8 # 10) (Some scissors) false false) ]
  | AwaitingReveal => Scene_shapes s = []
  | Resolved =>
      exists x y,
        Scene_shapes s = [x; y]
        /\ playerChoice s = Some (shape_weapon x)
        /\ computerChoice s = Some (shape_weapon y)
        /\ position (shape_props x) = (-2, 0, 0)
        /\ position (shape_props y) = (2, 0, 0)
        /\ onClick (shape_props x) = None /\ onClick (shape_props y) = None
        /\ cursor_over (shape_props x) = "default"
        /\ cursor_over (shape_props y) = "default"
  end.
Proof.
  intros Re; pose proof (reachable_inv s Re) as I.
  pose proof (calls_hoveredChoice s (reachable_calls s Re)) as Hh.
  unfold round_inv in I; unfold Scene_shapes, Scene_picks, Scene_revealed.
  rewrite Hh; destruct (phase s).
  - destruct I as (-> & -> & _); reflexivity.
  - destruct I as (w & -> & -> & _); reflexivity.
  - destruct I as (w & o & -> & -> & _).
    destruct w, o; cbn; eexists _, _; repeat split.
Qed.

(** X9: the arena shows, in a reachable state: in idle the three shapes
    rock, paper and scissors, each clickable for its own weapon; nothing
    while the reveal is awaited; and when resolved two shapes that cannot be
    clicked, the player's choice on the left and the opponent's on the
    right. *)
Theorem Scene_shapes_by_phase (s : App) :
  reachable s ->
  match phase s with
  | Idle =>
      Scene_shapes s =
      [ RockMesh (mkProps (-3, 0, 3) "#ff3366" (8 # 10) (Some rock) false false);
        PaperMesh (mkProps (0, 0, 3) "#00ff88" (8 # 10) (Some paper) false false);
        ScissorsGroup
          (mkProps (3, 0, 3) "#00ccff" (8 # 10) (Some scissors) false false) ]
  | AwaitingReveal => Scene_shapes s = []
  | Resolved =>
      exists x y,
        Scene_shapes s = [x; y]
        /\ playerChoice s = Some (shape_weapon x)
        /\ computerChoice s = Some (shape_weapon y)
        /\ position (shape_props x) = (-2, 0, 0)
        /\ position (shape_props y) = (2, 0, 0)
        /\ onClick (shape_props x) = None /\ onClick (shape_props y) = None
        /\ cursor_over (shape_props x) = "default"
        /\ cursor_over (shape_props y) = "default"
  end.
Proof. exact (Scene_shapes_phase s). Qed.

Lemma Scene_shapes_by_phase_witness :
  exists x y, Scene_shapes resolved_rock_rock = [x; y].
Proof.
  destruct (Scene_shapes_by_phase resolved_rock_rock
              reachable_resolved_rock_rock) as (x & y & E & _).
  exists x, y; exact E.
Defined.

(** X10: the overlays follow the phase, in every reachable state: the
    instruction line and the clickable shapes are there exactly in idle;
    the result banner, the PLAY AGAIN button and the two revealed shapes are
    there exactly when the round is resolved. *)
Theorem overlays_by_phase (s : App) :
  reachable s ->
  (instructionsShown s = true <-> phase s = Idle)
  /\ (choicesShown s = true <-> phase s = Idle)
  /\ (Scene_picks s <> [] <-> phase s = Idle)
  /\ (playAgainShown s = true <-> phase s = Resolved)
  /\ (Scene_banner s <> None <-> phase s = Resolved)
  /\ (Scene_revealed s <> [] <-> phase s = Resolved).
Proof.
  intros Re; pose proof (reachable_inv s Re) as I.
  unfold instructionsShown, choicesShown, playAgainShown, Scene_banner,
    Scene_picks, Scene_revealed.
  inv_phase s I; rewrite P, A.
  - destruct I as (-> & -> & -> & _); cbn.
    repeat split; intros; try discriminate; try congruence.
  - destruct I as (w & -> & -> & -> & _); cbn.
    repeat split; intros; try discriminate; try congruence.
  - destruct I as (w & o & -> & -> & -> & _).
    destruct (getResult_defined w o) as [g ->]; cbn.
    repeat split; intros; try discriminate; try congruence.
Qed.

Lemma overlays_by_phase_witness :
  playAgainShown resolved_rock_rock = true
  <-> phase resolved_rock_rock = Resolved.
Proof.
  apply (overlays_by_phase resolved_rock_rock reachable_resolved_rock_rock).
Defined.

(** X11: a shape that can be clicked selects what it shows: if a shape in
    the arena of a reachable state carries a click action, the page is idle,
    the action is for the weapon the shape displays, and running it
    ([handleChoice]) makes that weapon the player's choice and starts the
    reveal. *)
Theorem clickable_shape_selects_itself (s : App) (x : Shape) (w : Weapon) :
  reachable s -> In x (Scene_shapes s) -> onClick (shape_props x) = Some w ->
  phase s = Idle
  /\ shape_weapon x = w
  /\ cursor_over (shape_props x) = "pointer"
  /\ playerChoice (handleChoice (Some w) s) = Some w
  /\ phase (handleChoice (Some w) s) = AwaitingReveal.
Proof.
  intros Re Hx Hc.
  pose proof (Scene_shapes_phase s Re) as H.
  destruct (phase_cases s) as [(P & A & R) | [(P & A) | (P & A & R)]];
    rewrite P in H.
  - rewrite H in Hx.
    assert (Hw : shape_weapon x = w /\ cursor_over (shape_props x) = "pointer").
    { destruct Hx as [<- | [<- | [<- | []]]]; cbn in Hc |- *;
        split; congruence. }
    destruct Hw as [Hw Hcur].
    split; [exact P | ].
    unfold handleChoice, phase; rewrite A; cbn; auto.
  - rewrite H in Hx; destruct Hx.
  - destruct H as (a & b & E & _ & _ & _ & _ & Ha & Hb & _).
    rewrite E in Hx; destruct Hx as [<- | [<- | []]]; congruence.
Qed.

Lemma clickable_shape_selects_itself_witness :
  playerChoice (handleChoice (Some paper) initial) = Some paper.
Proof.
  apply (clickable_shape_selects_itself initial
           (PaperMesh (mkProps (0, 0, 3) "#00ff88" (8 # 10) (Some paper)
                               false false))
           paper reachable_initial).
  - right; left; reflexivity.
  - reflexivity.
Defined.

(** X12: the shape that glows and pulses is the winner's.  No shape is
    marked selected before the round is resolved; when it is resolved, the
    player's shape is marked exactly when its weapon beats the opponent's,
    the opponent's shape exactly when its weapon beats the player's, never
    both, and neither exactly on a draw. *)
Theorem winner_is_highlighted (s : App) :
  reachable s ->
  (forall x, In x (Scene_shapes s) -> isSelected (shape_props x) = true ->
             phase s = Resolved)
  /\ (phase s = Resolved ->
      exists x y,
        Scene_shapes s = [x; y]
        /\ (isSelected (shape_props x) = true <->
            getResult (Some (shape_weapon x)) (Some (shape_weapon y)) = Some win)
        /\ (isSelected (shape_props y) = true <->
            getResult (Some (shape_weapon y)) (Some (shape_weapon x)) = Some win)
        /\ ~ (isSelected (shape_props x) = true
              /\ isSelected (shape_props y) = true)
        /\ (isSelected (shape_props x) = false
            /\ isSelected (shape_props y) = false
            <-> shape_weapon x = shape_weapon y)).
Proof.
  intros Re; pose proof (reachable_inv s Re) as I.
  pose proof (Scene_shapes_phase s Re) as H.
  unfold round_inv in I; split.
  - intros x Hx Hs; destruct (phase s); [ | | reflexivity]; rewrite H in Hx.
    + destruct Hx as [<- | [<- | [<- | []]]]; discriminate Hs.
    + destruct Hx.
  - intros P; rewrite P in I; clear H.
    destruct I as (w & o & Hp & Hc & Hr & _).
    unfold Scene_shapes, Scene_picks, Scene_revealed; rewrite Hp, Hc, Hr.
    destruct w, o; cbn; eexists _, _; (split; [reflexivity | ]); cbn;
      repeat split; intros; try discriminate; try tauto;
      try (intros [? ?]; discriminate);
      match goal with
      | H : _ /\ _ |- _ => destruct H; discriminate
      end.
Qed.

Lemma winner_is_highlighted_witness :
  exists x y,
    Scene_shapes won_page = [x; y]
    /\ (isSelected (shape_props x) = true <->
        getResult (Some (shape_weapon x)) (Some (shape_weapon y)) = Some win).
Proof.
  assert (Re : reachable won_page).
  { apply (reachable_step pending_rock _ (Reveal (7 # 10)) reachable_pending_rock).
    apply step_reveal; [split; [discriminate | reflexivity] | discriminate]. }
  destruct (proj2 (winner_is_highlighted won_page Re) eq_refl)
    as (x & y & E & W & _).
  exists x, y; split; [exact E | exact W].
Defined.

(** X13: the banner tells what was scored.  After every reveal a banner is
    shown; it reads YOU WIN! exactly when the round added 1 to wins, YOU
    LOSE exactly when it added 1 to losses and DRAW! exactly when it added 1
    to draws; and the victory particles are active exactly when it reads
    YOU WIN!. *)
Theorem banner_matches_score (s s' : App) (r : Q) :
  reachable s -> step s (Reveal r) s' ->
  exists text colour,
    Scene_banner s' = Some (text, colour)
    /\ (text = "YOU WIN!" <-> wins (score s') = wins (score s) + 1)
    /\ (text = "YOU LOSE" <-> losses (score s') = losses (score s) + 1)
    /\ (text = "DRAW!" <-> draws (score s') = draws (score s) + 1)
    /\ (particlesActive s' = true <-> text = "YOU WIN!")
    /\ (colour = "#00ff88" <-> text = "YOU WIN!").
Proof.
  intros Re St.
  destruct (reveal_step_shape s s' r Re St) as (U & _ & w & _ & _ & ->).
  destruct (compChoice_defined r U) as [o Ho].
  unfold Scene_banner, particlesActive, revealCallback; cbn [result score];
    rewrite Ho.
  destruct (getResult_defined w o) as [g ->].
  destruct g; cbn; eexists _, _; (split; [reflexivity | ]);
    repeat split; intros; try reflexivity; try discriminate; lia.
Qed.

Lemma banner_matches_score_witness :
  exists text colour,
    Scene_banner won_page = Some (text, colour)
    /\ (text = "YOU WIN!" <->
        wins (score won_page) = wins (score pending_rock) + 1).
Proof.
  assert (St : step pending_rock (Reveal (7 # 10)) won_page).
  { apply (step_reveal pending_rock (7 # 10));
      [split; [discriminate | reflexivity] | discriminate]. }
  destruct (banner_matches_score _ _ _ reachable_pending_rock St)
    as (t & c & E & W & _).
  exists t, c; split; [exact E | exact W].
Defined.

(** X14: the hover highlight never happens.  Nothing calls
    [setHoveredChoice], so however the handlers are called the hovered
    choice stays absent, no shape in the arena is marked hovered, and every
    shape is drawn at its base scale (the factor 1.15 is never applied). *)
Theorem hover_never_set (s : App) :
  calls initial s ->
  hoveredChoice s = None
  /\ forall x, In x (Scene_shapes s) ->
       isHovered (shape_props x) = false
       /\ (mesh_scale (shape_props x) == scale (shape_props x))%Q.
Proof.
  intros C; pose proof (calls_hoveredChoice s C) as Hh.
  split; [exact Hh | ].
  unfold Scene_shapes, Scene_picks, Scene_revealed; rewrite Hh.
  intros x Hx.
  assert (Hf : isHovered (shape_props x) = false).
  { destruct (playerChoice s) as [[ | | ] | ],
             (computerChoice s) as [[ | | ] | ]; cbn in Hx;
      repeat match goal with
             | H : _ \/ _ |- _ => destruct H as [<- | H]
             | H : False |- _ => destruct H
             end; reflexivity. }
  split; [exact Hf | ].
  unfold mesh_scale; rewrite Hf; apply Qmult_1_r.
Qed.

Lemma hover_never_set_witness : hoveredChoice pending_rock = None.
Proof.
  exact (proj1 (hover_never_set pending_rock calls_pending_rock)).
Defined.

End RenderingFacts.

(** ** The victory particles: successive frames *)

Section ParticleFacts.

Import Lqa.
Local Open Scope Q_scope.

Variable rnd : nat -> Q.

Lemma Qgtb_spec (x y : Q) : Qgtb x y = true <-> y < x.
Proof.
  unfold Qgtb; rewrite negb_true_iff, <- not_true_iff_false, Qle_bool_iff.
  split; [apply Qnot_le_lt | apply Qlt_not_le].
Qed.





End ParticleFacts.


(** ** The animation callbacks *)

Section AnimationFacts.

Import Reals Lra Qreals.
Local Open Scope R_scope.

Lemma Rock_frames_mounted (p : Props) (ts : list R) (o : Object3D) :
  exists o', Rock_frames p ts (Some o) = Some o'
             /\ rotation_y o' = rotation_y o + 0.005 * INR (length ts)
             /\ rotation_x o' = rotation_x o
             /\ position_y o' = position_y o.
Proof.
  unfold Rock_frames; revert o; induction ts as [ | t ts IH]; intros o.
  - exists o; cbn; repeat split; lra.
  - cbn [fold_left]; unfold Rock_frame at 2.
    destruct (isSelected p);
      match goal with |- context [fold_left _ ts (Some ?x)] =>
        destruct (IH x) as (o' & E & Hy & Hx & Hp) end;
      exists o'; rewrite E; cbn [rotation_y rotation_x position_y] in *;
      (split; [reflexivity | ]); rewrite Hy, Hx, Hp;
      change (length (t :: ts)) with (S (length ts)); rewrite S_INR;
      repeat split; lra.
Qed.

Lemma Rock_frames_last (p : Props) (ts : list R) (t : R)
    (ref : option Object3D) :
  Rock_frames p (ts ++ [t]) ref = Rock_frame p t (Rock_frames p ts ref).
Proof. unfold Rock_frames; rewrite fold_left_app; reflexivity. Qed.

(** X19: the rock turns steadily and pulses within a tenth of its size.  On
    a mounted rock every frame adds 0.005 to the rotation about y, so after
    the frames at clock values [ts ++ [t]] the rotation has grown by 0.005
    times their number; if the rock is marked selected its scale is then
    [scale * (1 + 0.1 sin(4 t))], between 0.9 and 1.1 times the scale prop;
    if it is not, the callback leaves the scale alone. *)
Theorem Rock_spins_and_pulses (p : Props) (ts : list R) (t : R)
    (o : Object3D) :
  0 <= Q2R (scale p) ->
  exists o',
    Rock_frames p (ts ++ [t]) (Some o) = Some o'
    /\ rotation_y o' = rotation_y o + 0.005 * INR (length (ts ++ [t]))
    /\ (isSelected p = true ->
        scalar o' = Q2R (scale p) * (1 + sin (t * 4) * 0.1)
        /\ 0.9 * Q2R (scale p) <= scalar o' <= 1.1 * Q2R (scale p))
    /\ (isSelected p = false -> scalar o' = scalar o).
Proof.
  intros Hs.
  destruct (Rock_frames_mounted p (ts ++ [t]) o) as (o' & E & Hy & _).
  exists o'; split; [exact E | ]. split; [exact Hy | ].
  rewrite Rock_frames_last in E.
  split.
  - intros Sel.
    destruct (Rock_frames_mounted p ts o) as (o1 & E1 & _).
    rewrite E1 in E; unfold Rock_frame in E; rewrite Sel in E.
    injection E as <-; cbn [scalar].
    pose proof (SIN_bound (t * 4)) as [? ?].
    split; [reflexivity | nra].
  - intros Sel. clear Hy.
    assert (G : forall l o0 o1, Rock_frames p l (Some o0) = Some o1 ->
                                scalar o1 = scalar o0).
    { unfold Rock_frames; induction l as [ | a l IH]; intros o0 o1 H.
      - injection H as <-; reflexivity.
      - cbn [fold_left] in H; unfold Rock_frame at 2 in H; rewrite Sel in H.
        apply IH in H; exact H. }
    rewrite <- Rock_frames_last in E; exact (G _ _ _ E).
Qed.

Lemma Scissors_frame_angle (t : R) (st : option Object3D * R) :
  0.15 <= snd st <= 0.45 -> 0.15 <= snd (Scissors_frame t st) <= 0.45.
Proof.
  intros H; unfold Scissors_frame; destruct (fst st); [ | exact H].
  cbn [snd]; pose proof (SIN_bound (t * 3)) as [? ?]; lra.
Qed.

(** X20: the scissors never close.  Starting from the initial opening
    angle 0.3, after the frames at any clock values, mounted or not, the
    opening angle is between 0.15 and 0.45; so the first blade is always
    turned to the positive side and the second to the negative side, at
    least 0.3 apart. *)
Theorem Scissors_never_close (ts : list R) (ref : option Object3D) :
  let a := snd (Scissors_frames ts (ref, openAngle_initial)) in
  0.15 <= a <= 0.45
  /\ 0 < blade1_rotation a /\ blade2_rotation a < 0
  /\ 0.3 <= blade1_rotation a - blade2_rotation a.
Proof.
  cbn zeta.
  assert (H : 0.15 <= snd (Scissors_frames ts (ref, openAngle_initial)) <= 0.45).
  { unfold Scissors_frames.
    assert (H0 : 0.15 <= snd (ref, openAngle_initial) <= 0.45)
      by (unfold openAngle_initial; cbn; lra).
    revert H0; generalize (ref, openAngle_initial).
    induction ts as [ | t ts IH]; intros st H0; [exact H0 | ].
    cbn [fold_left]; apply IH, Scissors_frame_angle, H0. }
  unfold blade1_rotation, blade2_rotation; lra.
Qed.

(** X21: the paper and the result banner sway within fixed bounds.  After a
    frame at any clock value a mounted paper is turned by at most 0.3 about
    y and at most 0.1 about x, and a mounted banner hangs between heights
    2.8 and 3.2, turned by at most 0.1 about y; an unmounted one is not
    touched. *)
Theorem Paper_and_banner_sway (t : R) (o : Object3D) :
  (exists o', Paper_frame t (Some o) = Some o'
              /\ -0.3 <= rotation_y o' <= 0.3
              /\ -0.1 <= rotation_x o' <= 0.1
              /\ scalar o' = scalar o /\ position_y o' = position_y o)
  /\ (exists o', ResultText_frame t (Some o) = Some o'
                 /\ 2.8 <= position_y o' <= 3.2
                 /\ -0.1 <= rotation_y o' <= 0.1
                 /\ rotation_x o' = rotation_x o /\ scalar o' = scalar o)
  /\ Paper_frame t None = None /\ ResultText_frame t None = None.
Proof.
  pose proof (SIN_bound (t * 0.5)) as [? ?].
  pose proof (COS_bound (t * 0.3)) as [? ?].
  pose proof (SIN_bound (t * 2)) as [? ?].
  split; [ | split; [ | split; reflexivity]];
    eexists; (split; [reflexivity | ]); cbn; repeat split; lra.
Qed.

Lemma Rock_spins_and_pulses_witness :
  exists o',
    Rock_frames winner_props ([] ++ [0]) (Some (mkObject3D 0 0 0 1)) = Some o'.
Proof.
  assert (H : 0 <= Q2R (scale winner_props)) by (unfold Q2R; cbn; lra).
  destruct (Rock_spins_and_pulses winner_props [] 0 (mkObject3D 0 0 0 1) H)
    as (o' & E & _).
  exists o'; exact E.
Defined.

End AnimationFacts.

(** * The binary64 opponent selector *)

Section Binary64Facts.

Import Floats.
#[local] Set Warnings "-inexact-float".

(** ** Rounding the product of a draw and 3 *)

Lemma digits2_pos_log2 (p : positive) :
  Z.pos (digits2_pos p) = Z.log2 (Z.pos p) + 1.
Proof.
  induction p as [p IH | p IH | ]; cbn [digits2_pos]; [ | | reflexivity].
  - rewrite Pos2Z.inj_succ, IH.
    change (Z.pos p~1) with (2 * Z.pos p + 1).
    rewrite Z.log2_succ_double by lia; lia.
  - rewrite Pos2Z.inj_succ, IH.
    change (Z.pos p~0) with (2 * Z.pos p).
    rewrite Z.log2_double by lia; lia.
Qed.

Lemma digits2_pos_bounds (p : positive) :
  2 ^ (Z.pos (digits2_pos p) - 1) <= Z.pos p < 2 ^ Z.pos (digits2_pos p).
Proof.
  rewrite digits2_pos_log2.
  replace (Z.log2 (Z.pos p) + 1 - 1) with (Z.log2 (Z.pos p)) by lia.
  pose proof (Z.log2_spec (Z.pos p) ltac:(lia)) as H.
  replace (Z.log2 (Z.pos p) + 1) with (Z.succ (Z.log2 (Z.pos p))) by lia.
  exact H.
Qed.

Lemma digits2_pos_unique (p : positive) (d : Z) :
  2 ^ (d - 1) <= Z.pos p < 2 ^ d -> Z.pos (digits2_pos p) = d.
Proof.
  intros H. rewrite digits2_pos_log2.
  assert (0 < d).
  { destruct (Z_lt_le_dec 0 d); [assumption | ].
    assert (2 ^ d <= 1); [ | lia].
    destruct (Z.eq_dec d 0) as [-> | ]; [reflexivity | ].
    rewrite (Z.pow_neg_r 2 d) by lia. lia. }
  pose proof (Z.log2_unique (Z.pos p) (d - 1) ltac:(lia)) as U.
  replace (Z.succ (d - 1)) with d in U by lia. specialize (U H). lia.
Qed.

(** One step of the right shift, on a non-negative mantissa. *)
Lemma shr_1_nonneg (m : Z) (r s : bool) :
  0 <= m ->
  shr_1 (Build_shr_record m r s)
  = Build_shr_record (m / 2) (Z.odd m) (r || s).
Proof.
  intros H; destruct m as [ | p | p]; [reflexivity | | lia].
  destruct p as [p | p | ]; cbn [shr_1].
  - f_equal. change (Z.pos p~1) with (2 * Z.pos p + 1).
    apply (Z.div_unique _ _ _ 1); lia.
  - f_equal. change (Z.pos p~0) with (2 * Z.pos p).
    apply (Z.div_unique _ _ _ 0); lia.
  - reflexivity.
Qed.

Lemma shr_exact (n : nat) (z : Z) :
  0 <= z ->
  Nat.iter n shr_1 (Build_shr_record (z * 2 ^ Z.of_nat n) false false)
  = Build_shr_record z false false.
Proof.
  intros Hz; induction n as [ | n IH].
  - cbn [Nat.iter]. change (2 ^ Z.of_nat 0) with 1. rewrite Z.mul_1_r; reflexivity.
  - rewrite Nat.iter_succ_r, shr_1_nonneg by (apply Z.mul_nonneg_nonneg; lia).
    rewrite Nat2Z.inj_succ, Z.pow_succ_r by lia.
    replace (z * (2 * 2 ^ Z.of_nat n)) with ((z * 2 ^ Z.of_nat n) * 2) by ring.
    rewrite Z.div_mul by lia.
    rewrite Z.odd_mul, Bool.andb_false_r. exact IH.
Qed.

Lemma mul_three_mantissa (m : positive) :
  Z.pos (m * three_mantissa) = (3 * Z.pos m) * 2 ^ Z.of_nat 51.
Proof.
  rewrite Pos2Z.inj_mul. change (Z.pos three_mantissa) with (3 * 2 ^ Z.of_nat 51). ring.
Qed.

Lemma digits_le (p : positive) (k : Z) :
  0 <= k -> Z.pos p < 2 ^ k -> Z.pos (digits2_pos p) <= k.
Proof.
  intros Hk H; pose proof (digits2_pos_bounds p) as [B _].
  assert (2 ^ (Z.pos (digits2_pos p) - 1) < 2 ^ k) as L by lia.
  apply Z.pow_lt_mono_r_iff in L; lia.
Qed.

Lemma bounded_facts (m : positive) (e : Z) :
  bounded 53 1024 m e = true ->
  -1074 <= e <= 971 /\ Z.pos m < 2 ^ 53
  /\ (e = -1074 \/ 2 ^ 52 <= Z.pos m).
Proof.
  unfold bounded, canonical_mantissa, fexp, SpecFloat.emin.
  rewrite andb_true_iff, Z.eqb_eq, Z.leb_le; intros [C L].
  pose proof (digits2_pos_bounds m) as [B1 B2].
  assert (D : Z.pos (digits2_pos m) <= 53) by lia.
  split; [lia | ]. split.
  - apply (Z.lt_le_trans _ _ _ B2), Z.pow_le_mono_r; lia.
  - destruct (Z.eq_dec e (-1074)) as [ | N]; [left; assumption | right].
    assert (Z.pos (digits2_pos m) = 53) as E by lia.
    rewrite E in B1; exact B1.
Qed.

Lemma iter_pos_51 (x : shr_record) : iter_pos shr_1 51 x = Nat.iter 51 shr_1 x.
Proof. reflexivity. Qed.
Lemma iter_pos_52 (x : shr_record) :
  iter_pos shr_1 52 x = shr_1 (Nat.iter 51 shr_1 x).
Proof. reflexivity. Qed.
Lemma iter_pos_53 (x : shr_record) :
  iter_pos shr_1 53 x = shr_1 (shr_1 (Nat.iter 51 shr_1 x)).
Proof. reflexivity. Qed.

Lemma pos_of_Z (z : Z) : 0 < z -> exists p, z = Z.pos p.
Proof. destruct z; try lia; eauto. Qed.

Lemma second_shift_none (p : positive) (e1 : Z) :
  2 ^ 52 <= Z.pos p < 2 ^ 53 -> -1074 <= e1 ->
  shr_fexp 53 1024 (Z.pos p) e1 loc_Exact
  = (Build_shr_record (Z.pos p) false false, e1).
Proof.
  intros Hp He; unfold shr_fexp; cbn [Zdigits2 shr_record_of_loc].
  rewrite (digits2_pos_unique p 53) by exact Hp.
  unfold fexp, SpecFloat.emin.
  replace (Z.max (53 + e1 - 53) (3 - 1024 - 53) - e1) with 0 by lia.
  reflexivity.
Qed.

Lemma second_shift_sub (p : positive) :
  Z.pos p < 2 ^ 53 ->
  shr_fexp 53 1024 (Z.pos p) (-1074) loc_Exact
  = (Build_shr_record (Z.pos p) false false, -1074).
Proof.
  intros Hp; unfold shr_fexp; cbn [Zdigits2 shr_record_of_loc].
  pose proof (digits_le p 53 ltac:(lia) Hp) as D.
  unfold fexp, SpecFloat.emin.
  replace (Z.max (Z.pos (digits2_pos p) + -1074 - 53) (3 - 1024 - 53) - -1074)
    with 0 by lia.
  reflexivity.
Qed.

Lemma second_shift_carry (e1 : Z) :
  -1074 <= e1 ->
  shr_fexp 53 1024 9007199254740992 e1 loc_Exact
  = (Build_shr_record 4503599627370496 false false, e1 + 1).
Proof.
  intros He; unfold shr_fexp; cbn [Zdigits2 shr_record_of_loc].
  change (Z.pos (digits2_pos 9007199254740992)) with 54.
  unfold fexp, SpecFloat.emin.
  replace (Z.max (54 + e1 - 53) (3 - 1024 - 53) - e1) with 1 by lia.
  reflexivity.
Qed.

(** The binary64 product of a positive number [m * 2^e] below 1 and 3: the
    exact product [3 m * 2^e] keeps its exponent raised by 1 as long as
    [3 m] stays below [2^54 - 1]; from there on the rounded product has the
    exponent raised by 2 (at [3 m = 2^54 - 1] by a tie that rounds up to
    the next power of two) and a mantissa below that of 3. *)
Lemma mul3_round (m : positive) (e : Z) :
  bounded 53 1024 m e = true -> e <= -53 ->
  exists m' e',
    binary_round_aux 53 1024 false (Z.pos (m * three_mantissa)) (e + -51) loc_Exact
    = S754_finite false m' e'
    /\ ((3 * Z.pos m < 2 ^ 54 - 1 /\ (e' = e + 1 \/ (e' = e /\ e = -1074)))
        \/ (2 ^ 54 - 1 <= 3 * Z.pos m /\ e' = e + 2 /\ Z.pos m' < Z.pos three_mantissa)).
Proof.
  intros Hb He. destruct (bounded_facts m e Hb) as (Be & Bm & Bn).
  pose proof (mul_three_mantissa m) as HM.
  remember (3 * Z.pos m) as T eqn:ET.
  assert (HT : 0 < T) by lia.
  destruct (pos_of_Z T HT) as [t Et].
  assert (HMn : Z.pos (m * three_mantissa) = T * 2251799813685248) by exact HM.
  unfold binary_round_aux.
  unfold shr_fexp at 1. cbn [Zdigits2 shr_record_of_loc].
  unfold fexp, SpecFloat.emin.
  change (2 ^ 53) with 9007199254740992 in *.
  change (2 ^ 52) with 4503599627370496 in *.
  change (2 ^ 54) with 18014398509481984 in *.
  destruct (Z_lt_le_dec T 9007199254740992) as [A | A'];
    [ | destruct (Z_lt_le_dec T 18014398509481984) as [B | C]].
  - (* the product fits: no rounding *)
    assert (e = -1074) as -> by lia.
    assert (D : Z.pos (digits2_pos (m * three_mantissa)) <= 104).
    { apply digits_le; [lia | ].
      change (2 ^ 104) with (9007199254740992 * 2251799813685248). nia. }
    replace (Z.max (Z.pos (digits2_pos (m * three_mantissa)) + (-1074 + -51) - 53)
               (3 - 1024 - 53) - (-1074 + -51)) with 51 by lia.
    cbn [shr]. rewrite iter_pos_51, HM, shr_exact by lia.
    cbn [shr_m loc_of_shr_record round_nearest_even].
    change (-1074 + -51 + 51) with (-1074).
    rewrite Et, second_shift_sub by (change (2 ^ 53) with 9007199254740992; lia).
    cbn [shr_m]. exists t, (-1074).
    split; [reflexivity | left; lia].
  - (* one bit is rounded off *)
    assert (D : Z.pos (digits2_pos (m * three_mantissa)) = 105).
    { apply digits2_pos_unique.
      change (2 ^ (105 - 1)) with (9007199254740992 * 2251799813685248).
      change (2 ^ 105) with (18014398509481984 * 2251799813685248). lia. }
    rewrite D.
    replace (Z.max (105 + (e + -51) - 53) (3 - 1024 - 53) - (e + -51))
      with 52 by lia.
    cbn [shr]. rewrite iter_pos_52, HM, shr_exact, shr_1_nonneg by lia.
    cbn [orb shr_m].
    pose proof (Z.div_mod T 2 ltac:(lia)) as Hq.
    pose proof (Zmod_odd T) as Ho.
    pose proof (Z.div_mod (T / 2) 2 ltac:(lia)) as Hq2.
    pose proof (Zmod_even (T / 2)) as He2.
    set (q := T / 2) in *.
    replace (e + -51 + 52) with (e + 1) by lia.
    destruct (Z.odd T) eqn:O; cbn [loc_of_shr_record round_nearest_even].
    + destruct (Z.even q) eqn:Ev.
      * destruct (pos_of_Z q ltac:(lia)) as [p2 Ep]; rewrite Ep.
        rewrite second_shift_none
          by (change (2 ^ 52) with 4503599627370496;
              change (2 ^ 53) with 9007199254740992; lia).
        cbn [shr_m].
        replace (e + 1 <=? 1024 - 53) with true by (symmetry; apply Z.leb_le; lia).
        exists p2, (e + 1); split; [reflexivity | left; lia].
      * destruct (Z_lt_le_dec (q + 1) 9007199254740992) as [L | L].
        -- destruct (pos_of_Z (q + 1) ltac:(lia)) as [p2 Ep]; rewrite Ep.
           rewrite second_shift_none
             by (change (2 ^ 52) with 4503599627370496;
                 change (2 ^ 53) with 9007199254740992; lia).
           cbn [shr_m].
           replace (e + 1 <=? 1024 - 53) with true
             by (symmetry; apply Z.leb_le; lia).
           exists p2, (e + 1); split; [reflexivity | left; lia].
        -- replace (q + 1) with 9007199254740992 by lia.
           rewrite second_shift_carry by lia. cbn [shr_m].
           replace (e + 1 + 1 <=? 1024 - 53) with true
             by (symmetry; apply Z.leb_le; lia).
           exists 4503599627370496%positive, (e + 1 + 1).
           split; [reflexivity | right]. unfold three_mantissa; lia.
    + destruct (pos_of_Z q ltac:(lia)) as [p2 Ep]; rewrite Ep.
      rewrite second_shift_none
        by (change (2 ^ 52) with 4503599627370496;
            change (2 ^ 53) with 9007199254740992; lia).
      cbn [shr_m].
      replace (e + 1 <=? 1024 - 53) with true by (symmetry; apply Z.leb_le; lia).
      exists p2, (e + 1); split; [reflexivity | left; lia].
  - (* two bits are rounded off *)
    assert (D : Z.pos (digits2_pos (m * three_mantissa)) = 106).
    { apply digits2_pos_unique.
      change (2 ^ (106 - 1)) with (18014398509481984 * 2251799813685248).
      change (2 ^ 106) with (36028797018963968 * 2251799813685248). lia. }
    rewrite D.
    replace (Z.max (106 + (e + -51) - 53) (3 - 1024 - 53) - (e + -51))
      with 53 by lia.
    cbn [shr]. rewrite iter_pos_53, HM, shr_exact, shr_1_nonneg by lia.
    rewrite shr_1_nonneg by (apply Z.div_pos; lia).
    cbn [orb shr_m].
    pose proof (Z.div_mod T 2 ltac:(lia)) as Hq.
    pose proof (Zmod_odd T) as Ho.
    pose proof (Z.div_mod (T / 2) 2 ltac:(lia)) as Hq2.
    pose proof (Zmod_odd (T / 2)) as Ho2.
    pose proof (Zmod_even (T / 2 / 2)) as He2.
    pose proof (Z.div_mod (T / 2 / 2) 2 ltac:(lia)) as Hq3.
    pose proof (Z.mod_pos_bound T 2 ltac:(lia)) as Hb1.
    pose proof (Z.mod_pos_bound (T / 2) 2 ltac:(lia)) as Hb2.
    set (q := T / 2) in *. set (q2 := q / 2) in *.
    replace (e + -51 + 53) with (e + 2) by lia.
    assert (G : forall m2, q2 <= m2 <= q2 + 1 -> (m2 = q2 + 1 -> Z.odd q = true) ->
      exists m' e',
        (let '(mrs'', e'') := shr_fexp 53 1024 m2 (e + 2) loc_Exact in
         match shr_m mrs'' with
         | 0 => S754_zero false
         | Z.pos m0 => if e'' <=? 1024 - 53 then S754_finite false m0 e''
                       else S754_infinity false
         | Z.neg _ => S754_nan
         end) = S754_finite false m' e'
        /\ (T < 18014398509481984 - 1 /\ (e' = e + 1 \/ e' = e /\ e = -1074)
            \/ 18014398509481984 - 1 <= T /\ e' = e + 2 /\ Z.pos m' < Z.pos three_mantissa)).
    { intros m2 B2 Up.
      assert (U : m2 < 6755399441055744).
      { destruct (Z.eq_dec m2 (q2 + 1)) as [E | E];
          [specialize (Up E); rewrite Up in Ho2 | ]; lia. }
      destruct (pos_of_Z m2 ltac:(lia)) as [p2 Ep]; rewrite Ep.
      rewrite second_shift_none
        by (change (2 ^ 52) with 4503599627370496;
            change (2 ^ 53) with 9007199254740992; lia).
      cbn [shr_m].
      replace (e + 2 <=? 1024 - 53) with true by (symmetry; apply Z.leb_le; lia).
      exists p2, (e + 2); split; [reflexivity | right]. unfold three_mantissa; lia. }
    destruct (Z.odd q) eqn:O2, (Z.odd T) eqn:O;
      cbn [orb loc_of_shr_record round_nearest_even];
      try destruct (Z.even q2); apply G; solve [lia | intros; reflexivity].
Qed.

Lemma SFcompare_pos (m1 m2 : positive) (e1 e2 : Z) :
  SFcompare (S754_finite false m1 e1) (S754_finite false m2 e2)
  = Some match e1 ?= e2 with
         | Lt => Lt
         | Gt => Gt
         | Eq => (m1 ?= m2)%positive
         end.
Proof. reflexivity. Qed.

Lemma SFltb_pos (m1 m2 : positive) (e1 e2 : Z) :
  SFltb (S754_finite false m1 e1) (S754_finite false m2 e2) = true
  <-> e1 < e2 \/ (e1 = e2 /\ Z.pos m1 < Z.pos m2).
Proof.
  unfold SFltb; rewrite SFcompare_pos.
  destruct (Z.compare_spec e1 e2); [ | split; [lia | reflexivity] | split; [discriminate | lia]].
  destruct (Pos.compare_spec m1 m2); split; intros; try discriminate; try reflexivity; lia.
Qed.

Lemma SFleb_pos (m1 m2 : positive) (e1 e2 : Z) :
  SFleb (S754_finite false m1 e1) (S754_finite false m2 e2) = true
  <-> e1 < e2 \/ (e1 = e2 /\ Z.pos m1 <= Z.pos m2).
Proof.
  unfold SFleb; rewrite SFcompare_pos.
  destruct (Z.compare_spec e1 e2); [ | split; [lia | reflexivity] | split; [discriminate | lia]].
  destruct (Pos.compare_spec m1 m2); split; intros; try discriminate; try reflexivity; lia.
Qed.

(** A draw in [0,1) is +0, -0 or a positive finite number below 1. *)
Lemma unit_draw64_shape (r : float) :
  unit_draw64 r ->
  (exists s, Prim2SF r = S754_zero s)
  \/ (exists m e, Prim2SF r = S754_finite false m e
                  /\ bounded 53 1024 m e = true /\ e <= -53).
Proof.
  intros [H0 H1]. rewrite leb_spec in H0. rewrite ltb_spec in H1.
  pose proof (Prim2SF_valid r) as V.
  change (Prim2SF 0) with (S754_zero false) in H0.
  change (Prim2SF 1) with (S754_finite false 4503599627370496 (-52)) in H1.
  destruct (Prim2SF r) as [s | s | | s m e].
  - left; eauto.
  - destruct s; discriminate.
  - discriminate.
  - right. destruct s; [discriminate | ].
    exists m, e. cbn [valid_binary] in V.
    apply SFltb_pos in H1. destruct (bounded_facts m e V) as (Be & Bm & Bn).
    change (2 ^ 52) with 4503599627370496 in Bn.
    repeat split; [exact V | lia].
Qed.

Lemma floor_of_finite (p : positive) (e k : Z) :
  e <= 0 -> k * 2 ^ (- e) <= Z.pos p < (k + 1) * 2 ^ (- e) ->
  Z.shiftl (Z.pos p) e = k.
Proof.
  intros He H. rewrite Z.shiftl_div_pow2 by lia.
  assert (0 < 2 ^ (- e)) by (apply Z.pow_pos_nonneg; lia).
  symmetry; apply (Z.div_unique _ _ _ (Z.pos p - k * 2 ^ (- e))); lia.
Qed.

Lemma floor_zero (p : positive) (e : Z) :
  Z.pos p < 2 ^ 53 -> e <= -53 -> Z.shiftl (Z.pos p) e = 0.
Proof.
  intros Hp He; apply floor_of_finite; [lia | ].
  assert (2 ^ 53 <= 2 ^ (- e)) by (apply Z.pow_le_mono_r; lia). lia.
Qed.

Lemma Prim2SF_below_third :
  Prim2SF below_third = S754_finite false 6004799503160661 (-54).
Proof. reflexivity. Qed.
Lemma Prim2SF_below_two_thirds :
  Prim2SF below_two_thirds = S754_finite false 6004799503160661 (-53).
Proof. reflexivity. Qed.
Lemma Prim2SF_3 : Prim2SF 3 = S754_finite false three_mantissa (-51).
Proof. reflexivity. Qed.

Lemma bool_false_iff (b : bool) (P : Prop) :
  (b = true <-> P) -> ~ P -> b = false.
Proof. destruct b; [intros [H _] N; destruct (N (H eq_refl)) | reflexivity]. Qed.

(** Where the rounded product falls, against where the draw lies. *)
Lemma compChoice64_cases (r : float) :
  unit_draw64 r ->
  (Math_floor (r * 3) = Some 0 /\ (r <? below_third)%float = true /\ (r <? below_two_thirds)%float = true
   /\ (below_third <=? r)%float = false /\ (below_two_thirds <=? r)%float = false)
  \/ (Math_floor (r * 3) = Some 1 /\ (r <? below_third)%float = false
      /\ (r <? below_two_thirds)%float = true
      /\ (below_third <=? r)%float = true /\ (below_two_thirds <=? r)%float = false)
  \/ (Math_floor (r * 3) = Some 2 /\ (r <? below_third)%float = false
      /\ (r <? below_two_thirds)%float = false
      /\ (below_third <=? r)%float = true /\ (below_two_thirds <=? r)%float = true).
Proof.
  intros U. unfold Math_floor.
  rewrite !ltb_spec, !leb_spec, mul_spec, Prim2SF_below_third, Prim2SF_below_two_thirds, Prim2SF_3.
  destruct (unit_draw64_shape r U) as [[s Hr] | (m & e & Hr & Hb & He)];
    rewrite Hr.
  - left; repeat split.
  - destruct (mul3_round m e Hb He) as (m' & e' & Hx & Hc).
    pose proof (Prim2SF_valid (r * 3)) as V.
    rewrite mul_spec, Hr, Prim2SF_3 in V.
    unfold SF64mul, SFmul, prec, emax; unfold SF64mul, SFmul, prec, emax in V;
      cbn [xorb] in V |- *.
    rewrite Hx in V |- *. cbn [valid_binary] in V. cbn [cond_Zopp].
    destruct (bounded_facts m e Hb) as (Be & Bm & Bn).
    destruct (bounded_facts m' e' V) as (Be' & Bm' & Bn').
    pose proof (SFltb_pos m 6004799503160661 e (-54)) as L1.
    pose proof (SFltb_pos m 6004799503160661 e (-53)) as L2.
    pose proof (SFleb_pos 6004799503160661 m (-54) e) as G1.
    pose proof (SFleb_pos 6004799503160661 m (-53) e) as G2.
    change (2 ^ 54) with 18014398509481984 in Hc.
    change (2 ^ 52) with 4503599627370496 in Bn, Bn'.
    unfold three_mantissa in Hc.
    assert (e' <= -53 \/ e' = -52 \/ e' = -51) as [E | [E | E]] by lia.
    + left. split; [f_equal; apply floor_zero; lia | ].
      repeat split;
        first [ apply L1; lia | apply L2; lia
              | apply (bool_false_iff _ _ G1); lia
              | apply (bool_false_iff _ _ G2); lia ].
    + right; left. split.
      { f_equal; subst e'; apply floor_of_finite; [lia | ].
        change (2 ^ (- -52)) with 4503599627370496.
        change (2 ^ 53) with 9007199254740992 in Bm'. lia. }
      repeat split;
        first [ apply L1; lia | apply L2; lia | apply G1; lia | apply G2; lia
              | apply (bool_false_iff _ _ L1); lia
              | apply (bool_false_iff _ _ L2); lia
              | apply (bool_false_iff _ _ G1); lia
              | apply (bool_false_iff _ _ G2); lia ].
    + right; right. split.
      { f_equal; subst e'; apply floor_of_finite; [lia | ].
        change (2 ^ (- -51)) with 2251799813685248. lia. }
      repeat split;
        first [ apply L1; lia | apply L2; lia | apply G1; lia | apply G2; lia
              | apply (bool_false_iff _ _ L1); lia
              | apply (bool_false_iff _ _ L2); lia
              | apply (bool_false_iff _ _ G1); lia
              | apply (bool_false_iff _ _ G2); lia ].
Qed.

(** ** The selector *)

Lemma compChoice64_pick (r : float) :
  unit_draw64 r ->
  (compChoice64 r = Some rock /\ Math_floor (r * 3) = Some 0
   /\ (r <? below_third)%float = true /\ (below_third <=? r)%float = false
   /\ (r <? below_two_thirds)%float = true
   /\ (below_two_thirds <=? r)%float = false)
  \/ (compChoice64 r = Some paper /\ Math_floor (r * 3) = Some 1
      /\ (r <? below_third)%float = false /\ (below_third <=? r)%float = true
      /\ (r <? below_two_thirds)%float = true
      /\ (below_two_thirds <=? r)%float = false)
  \/ (compChoice64 r = Some scissors /\ Math_floor (r * 3) = Some 2
      /\ (r <? below_third)%float = false /\ (below_third <=? r)%float = true
      /\ (r <? below_two_thirds)%float = false
      /\ (below_two_thirds <=? r)%float = true).
Proof.
  intros U; unfold compChoice64.
  destruct (compChoice64_cases r U)
    as [(F & A & B & C & D) | [(F & A & B & C & D) | (F & A & B & C & D)]];
    rewrite F; [left | right; left | right; right]; repeat split; assumption.
Qed.

(** Every binary64 draw gives a pick that an exact draw gives as well, so
    what is proved of the round controller for exact draws covers the
    binary64 draws. *)
Lemma compChoice64_exact_draw (r : float) :
  unit_draw64 r ->
  exists q, unit_draw q /\ compChoice q = compChoice64 r
            /\ forall choice s,
                 revealCallback choice q s = revealCallback64 choice r s.
Proof.
  intros U.
  assert (H : exists q, unit_draw q /\ compChoice q = compChoice64 r).
  { destruct (compChoice64_pick r U) as [(-> & _) | [(-> & _) | (-> & _)]];
      [exists 0%Q | exists (1 # 2)%Q | exists (5 # 6)%Q];
      (split; [split; [discriminate | reflexivity] | reflexivity]). }
  destruct H as (q & Uq & E); exists q.
  split; [exact Uq | ]. split; [exact E | ].
  intros choice s; unfold revealCallback, revealCallback64; rewrite E; reflexivity.
Qed.

(** C8, as the code has it: with the binary64 draw [r] of [Math.random()]
    as an input, the selector returns [CHOICES[floor(r * 3)]], the product
    being the rounded binary64 product; the index is 0, 1 or 2.  It is rock
    exactly for [r] below the largest binary64 number under 1/3, paper
    exactly from there to below the largest binary64 number under 2/3, and
    scissors exactly from there on: the product of each of these two numbers
    and 3 rounds up to 1 and to 2.  The three intervals have length 1/3
    less 1/(3 * 2^54), 1/3 less 1/(3 * 2^54) and 1/3 plus 1/(3 * 2^53).  The
    opponent choice stored by the reveal is this function of [r], whatever
    the state. *)
Theorem compChoice64_thirds (r : float) :
  unit_draw64 r ->
  (exists k, Math_floor (r * 3) = Some k /\ 0 <= k <= 2
             /\ compChoice64 r = index_Choice CHOICES k)
  /\ (compChoice64 r = Some rock <-> (r <? below_third)%float = true)
  /\ (compChoice64 r = Some paper <->
      (below_third <=? r)%float = true /\ (r <? below_two_thirds)%float = true)
  /\ (compChoice64 r = Some scissors <-> (below_two_thirds <=? r)%float = true)
  /\ ((F2Q below_third < 1 # 3)%Q /\ (1 # 3 < F2Q (next_up below_third))%Q)
  /\ ((F2Q below_two_thirds < 2 # 3)%Q
      /\ (2 # 3 < F2Q (next_up below_two_thirds))%Q)
  /\ ((1 # 3) - F2Q below_third == 1 # 54043195528445952)%Q
  /\ ((2 # 3) - F2Q below_two_thirds == 1 # 27021597764222976)%Q
  /\ (forall choice s,
        computerChoice (revealCallback64 choice r s) = compChoice64 r).
Proof.
  intros U.
  split.
  { destruct (compChoice64_pick r U)
      as [(_ & F & _) | [(_ & F & _) | (_ & F & _)]];
      unfold compChoice64; rewrite F; eexists; repeat split; lia. }
  split; [ | split; [ | split]].
  - destruct (compChoice64_pick r U)
      as [(E & _ & A & _) | [(E & _ & A & _) | (E & _ & A & _)]];
      rewrite E, A; split; intros; try discriminate; reflexivity.
  - destruct (compChoice64_pick r U)
      as [(E & _ & _ & A & B & _) | [(E & _ & _ & A & B & _)
                                    | (E & _ & _ & A & B & _)]];
      rewrite E, A, B; split; try intros [? ?]; intros;
      try discriminate; auto.
  - destruct (compChoice64_pick r U)
      as [(E & _ & _ & _ & _ & A) | [(E & _ & _ & _ & _ & A)
                                    | (E & _ & _ & _ & _ & A)]];
      rewrite E, A; split; intros; try discriminate; reflexivity.
  - repeat split; vm_compute; reflexivity.
Qed.

Lemma compChoice64_thirds_witness :
  unit_draw64 0.7 /\ compChoice64 0.7 = Some scissors.
Proof.
  assert (U : unit_draw64 0.7) by (split; reflexivity).
  split; [exact U | ].
  destruct (compChoice64_thirds 0.7 U) as (_ & _ & _ & S & _).
  apply S; reflexivity.
Defined.

(** C8 as stated fails at the interval ends: the largest binary64 number
    below 2/3 lies in [1/3,2/3), but its product with 3 rounds to 2 and the
    selector returns scissors, not paper; likewise the largest one below
    1/3 gives paper, not rock. *)
Lemma compChoice64_rounds_up :
  unit_draw64 below_two_thirds
  /\ (1 # 3 <= F2Q below_two_thirds)%Q /\ (F2Q below_two_thirds < 2 # 3)%Q
  /\ (below_two_thirds * 3 =? 2)%float = true
  /\ compChoice64 below_two_thirds = Some scissors
  /\ unit_draw64 below_third /\ (F2Q below_third < 1 # 3)%Q
  /\ compChoice64 below_third = Some paper
  /\ ~ (forall r : float,
          unit_draw64 r ->
          ((F2Q r < 1 # 3)%Q -> compChoice64 r = Some rock)
          /\ ((1 # 3 <= F2Q r)%Q /\ (F2Q r < 2 # 3)%Q ->
              compChoice64 r = Some paper)
          /\ ((2 # 3 <= F2Q r)%Q -> compChoice64 r = Some scissors)).
Proof.
  assert (U : unit_draw64 below_two_thirds) by (split; reflexivity).
  assert (A : (1 # 3 <= F2Q below_two_thirds)%Q) by (vm_compute; discriminate).
  assert (B : (F2Q below_two_thirds < 2 # 3)%Q) by (vm_compute; reflexivity).
  split; [exact U | ]. split; [exact A | ]. split; [exact B | ].
  split; [reflexivity | ]. split; [reflexivity | ].
  split; [split; reflexivity | ].
  split; [vm_compute; reflexivity | ]. split; [reflexivity | ].
  intros H; destruct (H below_two_thirds U) as (_ & P & _).
  specialize (P (conj A B)); discriminate P.
Qed.

(** ** Fairness *)

Lemma compChoice64_interval (r : float) (o : Weapon) :
  unit_draw64 r ->
  (compChoice64 r = Some o <->
   (pick_from o <=? r)%float = true /\ (r <? pick_below o)%float = true).
Proof.
  intros U; pose proof U as [U0 U1].
  destruct (compChoice64_pick r U)
    as [(E & _ & A & B & C & D) | [(E & _ & A & B & C & D)
                                  | (E & _ & A & B & C & D)]];
    rewrite E; destruct o; cbn [pick_from pick_below];
    rewrite ?A, ?B, ?C, ?D, ?U0, ?U1;
    split; try intros [? ?]; intros; try discriminate; auto.
Qed.

(** X3: the game is fair whatever the player picks.  For every weapon of
    the player and every outcome (win, lose, draw) there is exactly one
    opponent weapon giving that outcome, and a round has that outcome
    exactly when the binary64 draw of [Math.random()] falls in that
    weapon's interval, one of [0,a), [a,b), [b,1) with [a] and [b] the
    largest binary64 numbers below 1/3 and 2/3; each interval has length
    1/3 to within 2^-53. *)
Theorem outcomes_have_a_third_each (w : Weapon) (g : Outcome) :
  exists o,
    getResult (Some w) (Some o) = Some g
    /\ (forall o', getResult (Some w) (Some o') = Some g -> o' = o)
    /\ (forall r, unit_draw64 r ->
          (getResult (Some w) (compChoice64 r) = Some g <->
           (pick_from o <=? r)%float = true /\ (r <? pick_below o)%float = true))
    /\ ((1 # 3) - (1 # 9007199254740992)
        < F2Q (pick_below o) - F2Q (pick_from o))%Q
    /\ (F2Q (pick_below o) - F2Q (pick_from o)
        < (1 # 3) + (1 # 9007199254740992))%Q.
Proof.
  assert (H : exists o, getResult (Some w) (Some o) = Some g
                        /\ forall o', getResult (Some w) (Some o') = Some g ->
                                      o' = o).
  { destruct w, g;
      first [ exists rock; split; [reflexivity | intros []; cbn; congruence]
            | exists paper; split; [reflexivity | intros []; cbn; congruence]
            | exists scissors; split; [reflexivity | intros []; cbn; congruence] ]. }
  destruct H as (o & Ho & Hu); exists o.
  split; [exact Ho | ]. split; [exact Hu | ].
  split.
  - intros r U; rewrite <- (compChoice64_interval r o U).
    destruct (compChoice64_pick r U) as [(-> & _) | [(-> & _) | (-> & _)]];
      (split; [intros H; f_equal; apply Hu; exact H | intros [= <-]; exact Ho]).
  - destruct o; split; vm_compute; reflexivity.
Qed.

End Binary64Facts.

(** ** The victory particles in binary32 *)

Section Particles32Facts.

Import Floats.
#[local] Set Warnings "-inexact-float".

Variables (vel : list float) (rnd : nat -> float).

Lemma length_store32 (l : list float) (k : nat) (x : float) :
  length (store32 l k x) = length l.
Proof. unfold store32; apply length_insert. Qed.

Lemma rd32_store_eq (l : list float) (k : nat) (x : float) :
  (k < length l)%nat -> rd32 (store32 l k x) k = to_binary32 x.
Proof.
  intros H; unfold rd32, store32.
  rewrite list_lookup_insert_eq by exact H; reflexivity.
Qed.

Lemma rd32_store_ne (l : list float) (k j : nat) (x : float) :
  k <> j -> rd32 (store32 l k x) j = rd32 l j.
Proof.
  intros H; unfold rd32, store32.
  rewrite list_lookup_insert_ne by exact H; reflexivity.
Qed.

Lemma to_binary32_minus_one : to_binary32 (-1) = (-1)%float.
Proof. vm_compute; reflexivity. Qed.

Ltac rd32_simpl :=
  repeat first
    [ rewrite rd32_store_eq by (rewrite ?length_store32; lia)
    | rewrite rd32_store_ne by lia ].

Lemma moveParticle32_length (pos : list float) (n i : nat) :
  length (fst (moveParticle32 vel rnd (pos, n) i)) = length pos.
Proof.
  unfold moveParticle32.
  match goal with |- context [if ?b then _ else _] => destruct b end;
    cbn [fst]; rewrite ?length_store32; reflexivity.
Qed.

Lemma moveParticle32_draws (pos : list float) (n i : nat) :
  (n <= snd (moveParticle32 vel rnd (pos, n) i))%nat.
Proof.
  unfold moveParticle32.
  match goal with |- context [if ?b then _ else _] => destruct b end;
    cbn [snd]; lia.
Qed.

(** Iteration [i] touches the three cells of particle [i] only. *)
Lemma moveParticle32_other (pos : list float) (n i k : nat) :
  k <> (i * 3)%nat -> k <> (i * 3 + 1)%nat -> k <> (i * 3 + 2)%nat ->
  rd32 (fst (moveParticle32 vel rnd (pos, n) i)) k = rd32 pos k.
Proof.
  intros H0 H1 H2; unfold moveParticle32.
  match goal with |- context [if ?b then _ else _] => destruct b end;
    cbn [fst]; rd32_simpl; reflexivity.
Qed.

Lemma moveParticle32_here (pos : list float) (n i : nat) :
  (i * 3 + 2 < length pos)%nat ->
  let st' := moveParticle32 vel rnd (pos, n) i in
  if (6 <? to_binary32 (py32 pos i + py32 vel i))%float then
    px32 (fst st') i = to_binary32 ((rnd n - 0.5) * 10)
    /\ py32 (fst st') i = (-1)%float
    /\ pz32 (fst st') i = to_binary32 ((rnd (S n) - 0.5) * 10)
    /\ snd st' = S (S n)
  else
    px32 (fst st') i = to_binary32 (px32 pos i + px32 vel i)
    /\ py32 (fst st') i = to_binary32 (py32 pos i + py32 vel i)
    /\ pz32 (fst st') i = to_binary32 (pz32 pos i + pz32 vel i)
    /\ snd st' = n.
Proof.
  intros L; cbn zeta; unfold moveParticle32, px32, py32, pz32.
  rd32_simpl.
  destruct (6 <? to_binary32 (rd32 pos (i * 3 + 1) + rd32 vel (i * 3 + 1)))%float;
    cbn [fst snd]; rd32_simpl; rewrite ?to_binary32_minus_one; auto.
Qed.

Lemma fold_moveParticle32_length (l : list nat) (st : list float * nat) :
  length (fst (fold_left (moveParticle32 vel rnd) l st)) = length (fst st).
Proof.
  revert st; induction l as [ | j l IH]; intros [pos n]; [reflexivity | ].
  cbn [fold_left]; rewrite IH.
  destruct (moveParticle32 vel rnd (pos, n) j) eqn:E.
  pose proof (moveParticle32_length pos n j) as H; rewrite E in H; exact H.
Qed.

Lemma fold_moveParticle32_draws (l : list nat) (st : list float * nat) :
  (snd st <= snd (fold_left (moveParticle32 vel rnd) l st))%nat.
Proof.
  revert st; induction l as [ | j l IH]; intros [pos n]; [reflexivity | ].
  cbn [fold_left]. etransitivity; [ | apply IH].
  apply moveParticle32_draws.
Qed.

(** The iterations for other particles leave particle [i] where it is. *)
Lemma fold_moveParticle32_other (l : list nat) (st : list float * nat)
    (i : nat) :
  ~ In i l ->
  let st' := fold_left (moveParticle32 vel rnd) l st in
  px32 (fst st') i = px32 (fst st) i /\ py32 (fst st') i = py32 (fst st) i
  /\ pz32 (fst st') i = pz32 (fst st) i.
Proof.
  revert st; induction l as [ | j l IH]; intros [pos n] N; [cbn; auto | ].
  cbn zeta; cbn [fold_left].
  assert (Nj : i <> j) by (intros ->; apply N; left; reflexivity).
  assert (Nl : ~ In i l) by (intros H; apply N; right; exact H).
  destruct (IH (moveParticle32 vel rnd (pos, n) j) Nl) as (Hx & Hy & Hz).
  rewrite Hx, Hy, Hz; unfold px32, py32, pz32; cbn [fst].
  rewrite !moveParticle32_other by lia; auto.
Qed.

(** What one frame does to particle [i] when the update runs. *)
Lemma moveParticles32_particle (pos : list float) (n i : nat) :
  buffer32_ok pos -> (i < particleCount)%nat ->
  let st' := moveParticles32 vel rnd (pos, n) in
  buffer32_ok (fst st')
  /\ if (6 <? to_binary32 (py32 pos i + py32 vel i))%float then
       py32 (fst st') i = (-1)%float
       /\ exists k, (n <= k)%nat /\ (S (S k) <= snd st')%nat
            /\ px32 (fst st') i = to_binary32 ((rnd k - 0.5) * 10)
            /\ pz32 (fst st') i = to_binary32 ((rnd (S k) - 0.5) * 10)
     else
       px32 (fst st') i = to_binary32 (px32 pos i + px32 vel i)
       /\ py32 (fst st') i = to_binary32 (py32 pos i + py32 vel i)
       /\ pz32 (fst st') i = to_binary32 (pz32 pos i + pz32 vel i).
Proof.
  intros B Hi; cbn zeta; unfold moveParticles32.
  split; [unfold buffer32_ok; rewrite fold_moveParticle32_length; exact B | ].
  rewrite (seq_split_at i particleCount Hi), fold_left_app; cbn [fold_left].
  assert (N1 : ~ In i (seq 0 i)) by (rewrite in_seq; lia).
  assert (N2 : ~ In i (seq (S i) (particleCount - S i)))
    by (rewrite in_seq; lia).
  pose proof (fold_moveParticle32_other (seq 0 i) (pos, n) i N1) as H1.
  pose proof (fold_moveParticle32_length (seq 0 i) (pos, n)) as L1.
  pose proof (fold_moveParticle32_draws (seq 0 i) (pos, n)) as D1.
  destruct (fold_left (moveParticle32 vel rnd) (seq 0 i) (pos, n))
    as [pos1 n1].
  cbn zeta in H1; cbn [fst snd] in H1, L1, D1; destruct H1 as (Hx1 & Hy1 & Hz1).
  assert (L : (i * 3 + 2 < length pos1)%nat).
  { rewrite L1, B; unfold particleCount in *; lia. }
  pose proof (moveParticle32_here pos1 n1 i L) as H; cbn zeta in H.
  pose proof (fold_moveParticle32_other _ (moveParticle32 vel rnd (pos1, n1) i)
                i N2) as (Hx2 & Hy2 & Hz2).
  pose proof (fold_moveParticle32_draws (seq (S i) (particleCount - S i))
                (moveParticle32 vel rnd (pos1, n1) i)) as D2.
  rewrite Hx2, Hy2, Hz2; rewrite Hx1, Hy1, Hz1 in H.
  destruct (6 <? to_binary32 (py32 pos i + py32 vel i))%float.
  - destruct H as (Hx & Hy' & Hz & Hn).
    split; [exact Hy' | ].
    exists n1; rewrite Hn in D2; auto.
  - tauto.
Qed.

Lemma VictoryParticles_frame32_idle (mounted active : bool)
    (st : list float * nat) :
  mounted && active = false ->
  VictoryParticles_frame32 mounted active vel rnd st = st.
Proof. unfold VictoryParticles_frame32; intros ->; reflexivity. Qed.

(** C9, as the code has it: the per-frame update does nothing unless the
    result is win (and the points are mounted); while the result is win a
    frame adds each particle's velocity to its position, each sum stored
    into the [Float32Array], that is rounded to binary32; and when the
    stored advanced height of a particle is above the ceiling 6 its height
    is set to -1 and its other two coordinates are drawn afresh from two
    consecutive values of [Math.random()], as [(r - 0.5) * 10] stored in
    binary32. *)
Theorem particle_frame_advances_and_respawns
    (s : App) (mounted : bool) (pos : list float) (n i : nat) :
  buffer32_ok pos -> (i < particleCount)%nat ->
  let st' := Scene_frame32 s mounted vel rnd (pos, n) in
  (result s <> Some win -> st' = (pos, n))
  /\ (result s = Some win -> mounted = true ->
      buffer32_ok (fst st')
      /\ if (6 <? to_binary32 (py32 pos i + py32 vel i))%float then
           py32 (fst st') i = (-1)%float
           /\ exists k, (n <= k)%nat /\ (S (S k) <= snd st')%nat
                /\ px32 (fst st') i = to_binary32 ((rnd k - 0.5) * 10)
                /\ pz32 (fst st') i = to_binary32 ((rnd (S k) - 0.5) * 10)
         else
           px32 (fst st') i = to_binary32 (px32 pos i + px32 vel i)
           /\ py32 (fst st') i = to_binary32 (py32 pos i + py32 vel i)
           /\ pz32 (fst st') i = to_binary32 (pz32 pos i + pz32 vel i)).
Proof.
  intros B Hi; cbn zeta; unfold Scene_frame32; split.
  - intros N; apply VictoryParticles_frame32_idle.
    destruct (particlesActive s) eqn:A; [ | apply andb_false_r].
    apply particlesActive_win in A; contradiction.
  - intros W ->; apply particlesActive_win in W.
    unfold VictoryParticles_frame32; rewrite W; cbn [andb].
    exact (moveParticles32_particle pos n i B Hi).
Qed.

(** *** The set-up loop *)

Lemma initParticle32_lengths (pos vl : list float) (n i : nat) :
  let '(pos', vel', n') := initParticle32 rnd (pos, vl, n) i in
  length pos' = length pos /\ length vel' = length vl /\ n' = (n + 6)%nat.
Proof. unfold initParticle32; rewrite !length_store32; auto. Qed.

Lemma initParticle32_other (pos vl : list float) (n i k : nat) :
  k <> (i * 3)%nat -> k <> (i * 3 + 1)%nat -> k <> (i * 3 + 2)%nat ->
  let '(pos', vel', _) := initParticle32 rnd (pos, vl, n) i in
  rd32 pos' k = rd32 pos k /\ rd32 vel' k = rd32 vl k.
Proof. intros H0 H1 H2; unfold initParticle32; rd32_simpl; auto. Qed.

Lemma initParticle32_here (pos vl : list float) (n i : nat) :
  (i * 3 + 2 < length pos)%nat -> (i * 3 + 2 < length vl)%nat ->
  let '(pos', vel', _) := initParticle32 rnd (pos, vl, n) i in
  px32 pos' i = to_binary32 ((rnd n - 0.5) * 10)
  /\ py32 pos' i = to_binary32 (rnd (n + 1)%nat * 5)
  /\ pz32 pos' i = to_binary32 ((rnd (n + 2)%nat - 0.5) * 10)
  /\ px32 vel' i = to_binary32 ((rnd (n + 3)%nat - 0.5) * 0.02)
  /\ py32 vel' i = to_binary32 (rnd (n + 4)%nat * 0.03 + 0.01)
  /\ pz32 vel' i = to_binary32 ((rnd (n + 5)%nat - 0.5) * 0.02).
Proof.
  intros Lp Lv; unfold initParticle32, px32, py32, pz32; rd32_simpl.
  repeat split.
Qed.

Lemma fold_initParticle32_lengths (l : list nat) (pos vl : list float)
    (n : nat) :
  let '(pos', vel', n') := fold_left (initParticle32 rnd) l (pos, vl, n) in
  length pos' = length pos /\ length vel' = length vl
  /\ n' = (n + 6 * length l)%nat.
Proof.
  revert pos vl n; induction l as [ | j l IH]; intros pos vl n;
    [cbn; repeat split; lia | ].
  cbn [fold_left].
  pose proof (initParticle32_lengths pos vl n j) as H.
  destruct (initParticle32 rnd (pos, vl, n) j) as [[pos1 vel1] n1].
  destruct H as (Hp & Hv & ->).
  specialize (IH pos1 vel1 (n + 6)%nat).
  destruct (fold_left (initParticle32 rnd) l (pos1, vel1, (n + 6)%nat))
    as [[pos2 vel2] n2].
  destruct IH as (-> & -> & ->); cbn [length]; repeat split; auto; lia.
Qed.

Lemma fold_initParticle32_other (l : list nat) (pos vl : list float)
    (n i : nat) :
  ~ In i l ->
  let '(pos', vel', _) := fold_left (initParticle32 rnd) l (pos, vl, n) in
  (px32 pos' i = px32 pos i /\ py32 pos' i = py32 pos i
   /\ pz32 pos' i = pz32 pos i)
  /\ (px32 vel' i = px32 vl i /\ py32 vel' i = py32 vl i
      /\ pz32 vel' i = pz32 vl i).
Proof.
  revert pos vl n; induction l as [ | j l IH]; intros pos vl n N;
    [cbn; auto 10 | ].
  cbn [fold_left].
  assert (Nj : i <> j) by (intros ->; apply N; left; reflexivity).
  assert (Nl : ~ In i l) by (intros H; apply N; right; exact H).
  pose proof (initParticle32_other pos vl n j (i * 3) ltac:(lia) ltac:(lia)
                ltac:(lia)) as H0.
  pose proof (initParticle32_other pos vl n j (i * 3 + 1) ltac:(lia)
                ltac:(lia) ltac:(lia)) as H1.
  pose proof (initParticle32_other pos vl n j (i * 3 + 2) ltac:(lia)
                ltac:(lia) ltac:(lia)) as H2.
  destruct (initParticle32 rnd (pos, vl, n) j) as [[pos1 vel1] n1].
  specialize (IH pos1 vel1 n1 Nl).
  destruct (fold_left (initParticle32 rnd) l (pos1, vel1, n1))
    as [[pos2 vel2] n2].
  unfold px32, py32, pz32 in *.
  destruct H0 as [<- <-], H1 as [<- <-], H2 as [<- <-]; exact IH.
Qed.

(** X15: the set-up loop gives every particle [i] its position and its
    velocity from six consecutive values of [Math.random()], the values
    number [6 i] to [6 i + 5] of the effect: x and z are [(r - 0.5) * 10],
    the height is [r * 5], the velocity has [(r - 0.5) * 0.02] for x and z
    and [r * 0.03 + 0.01] upwards, each stored in binary32.  The buffers
    keep their length and 6 * 200 values are consumed.  The stores round:
    the largest binary64 draw below 1 gives the position x = 5 and the
    height 5, which no exact draw below 1 gives. *)
Theorem initParticles_cells (pos vl : list float) (n i : nat) :
  buffer32_ok pos -> buffer32_ok vl -> (i < particleCount)%nat ->
  let '(pos', vel', n') := initParticles32 rnd (pos, vl, n) in
  buffer32_ok pos' /\ buffer32_ok vel' /\ n' = (n + 6 * particleCount)%nat
  /\ px32 pos' i = to_binary32 ((rnd (n + 6 * i)%nat - 0.5) * 10)
  /\ py32 pos' i = to_binary32 (rnd (n + 6 * i + 1)%nat * 5)
  /\ pz32 pos' i = to_binary32 ((rnd (n + 6 * i + 2)%nat - 0.5) * 10)
  /\ px32 vel' i = to_binary32 ((rnd (n + 6 * i + 3)%nat - 0.5) * 0.02)
  /\ py32 vel' i = to_binary32 (rnd (n + 6 * i + 4)%nat * 0.03 + 0.01)
  /\ pz32 vel' i = to_binary32 ((rnd (n + 6 * i + 5)%nat - 0.5) * 0.02)
  /\ (unit_draw64 0x1.fffffffffffffp-1
      /\ to_binary32 ((0x1.fffffffffffffp-1 - 0.5) * 10) = 5%float
      /\ to_binary32 (0x1.fffffffffffffp-1 * 5) = 5%float).
Proof.
  intros Bp Bv Hi; unfold initParticles32.
  pose proof (fold_initParticle32_lengths (seq 0 particleCount) pos vl n) as HL.
  rewrite (seq_split_at i particleCount Hi), fold_left_app in *.
  cbn [fold_left] in *.
  assert (N1 : ~ In i (seq 0 i)) by (rewrite in_seq; lia).
  assert (N2 : ~ In i (seq (S i) (particleCount - S i)))
    by (rewrite in_seq; lia).
  pose proof (fold_initParticle32_other (seq 0 i) pos vl n i N1) as H1.
  pose proof (fold_initParticle32_lengths (seq 0 i) pos vl n) as L1.
  destruct (fold_left (initParticle32 rnd) (seq 0 i) (pos, vl, n))
    as [[pos1 vel1] n1].
  destruct L1 as (Lp1 & Lv1 & ->); rewrite length_seq in *.
  pose proof (initParticle32_here pos1 vel1 (n + 6 * i) i
                ltac:(rewrite Lp1, Bp; unfold particleCount in *; lia)
                ltac:(rewrite Lv1, Bv; unfold particleCount in *; lia)) as Hh.
  destruct (initParticle32 rnd (pos1, vel1, (n + 6 * i)%nat) i)
    as [[pos2 vel2] n2].
  pose proof (fold_initParticle32_other _ pos2 vel2 n2 i N2) as H2.
  destruct (fold_left (initParticle32 rnd) (seq (S i) (particleCount - S i))
              (pos2, vel2, n2)) as [[pos3 vel3] n3].
  destruct HL as (Lp & Lv & Ln).
  destruct H2 as [(-> & -> & ->) (-> & -> & ->)].
  destruct Hh as (-> & -> & -> & -> & -> & ->).
  unfold buffer32_ok; rewrite Lp, Lv.
  split; [exact Bp | ]. split; [exact Bv | ].
  rewrite <- (seq_split_at i particleCount Hi), length_seq in Ln.
  split; [exact Ln | ].
  do 6 (split; [reflexivity | ]).
  split; [split; reflexivity | ].
  split; vm_compute; reflexivity.
Qed.

(** *** Draws of a frame *)

Lemma count_wrapping32_ext (pos pos1 : list float) (l : list nat) :
  (forall i, In i l -> py32 pos1 i = py32 pos i) ->
  count_wrapping32 vel pos1 l = count_wrapping32 vel pos l.
Proof.
  induction l as [ | j l IH]; intros H; [reflexivity | ].
  cbn [count_wrapping32]; rewrite (H j (or_introl eq_refl)), IH;
    [reflexivity | ].
  intros i Hi; apply H; right; exact Hi.
Qed.

Lemma fold_moveParticle32_count (len start : nat) (pos : list float)
    (n : nat) :
  ((start + len) * 3 <= length pos)%nat ->
  snd (fold_left (moveParticle32 vel rnd) (seq start len) (pos, n))
  = (n + 2 * count_wrapping32 vel pos (seq start len))%nat.
Proof.
  revert start pos n; induction len as [ | len IH]; intros start pos n L;
    [cbn; lia | ].
  cbn [seq fold_left count_wrapping32].
  pose proof (moveParticle32_here pos n start ltac:(lia)) as H.
  pose proof (moveParticle32_length pos n start) as Hl.
  assert (E : forall i, In i (seq (S start) len) ->
                py32 (fst (moveParticle32 vel rnd (pos, n) start)) i
                = py32 pos i).
  { intros i Hi; apply in_seq in Hi; unfold py32.
    apply moveParticle32_other; lia. }
  destruct (moveParticle32 vel rnd (pos, n) start) as [pos1 n1].
  cbn [fst snd] in *; cbn zeta in H.
  rewrite IH by (rewrite Hl; lia).
  rewrite (count_wrapping32_ext pos pos1 _ E).
  destruct (6 <? to_binary32 (py32 pos start + py32 vel start))%float.
  - destruct H as (_ & _ & _ & ->); lia.
  - destruct H as (_ & _ & _ & ->); lia.
Qed.

Lemma count_wrapping32_le (pos : list float) (l : list nat) :
  (count_wrapping32 vel pos l <= length l)%nat.
Proof.
  induction l as [ | j l IH]; [cbn; lia | ].
  cbn [length count_wrapping32].
  destruct (6 <? to_binary32 (py32 pos j + py32 vel j))%float; lia.
Qed.

(** X17: a frame draws from [Math.random()] only for the particles whose
    advanced height, as stored in binary32, is above the ceiling 6, two
    values for each of them; a frame in which no particle passes it, and a
    frame that does not run, draw nothing. *)
Theorem frame_draws_two_per_respawn (pos : list float) (n : nat) :
  buffer32_ok pos ->
  snd (VictoryParticles_frame32 true true vel rnd (pos, n))
  = (n + 2 * count_wrapping32 vel pos (seq 0 particleCount))%nat
  /\ (forall mounted,
        snd (VictoryParticles_frame32 mounted false vel rnd (pos, n)) = n)
  /\ (count_wrapping32 vel pos (seq 0 particleCount) <= particleCount)%nat.
Proof.
  intros B; split; [ | split].
  - unfold VictoryParticles_frame32, moveParticles32; cbn [andb].
    apply fold_moveParticle32_count; rewrite B; lia.
  - intros mounted; unfold VictoryParticles_frame32.
    rewrite andb_false_r; reflexivity.
  - pose proof (count_wrapping32_le pos (seq 0 particleCount)) as H.
    rewrite length_seq in H; exact H.
Qed.

End Particles32Facts.

Section Particles32Examples.

Import Floats.
#[local] Set Warnings "-inexact-float".

Lemma demo_pos32_ok : buffer32_ok demo_pos32.
Proof. vm_compute; reflexivity. Qed.

Lemma zero_buffer32_ok : buffer32_ok zero_buffer32.
Proof. vm_compute; reflexivity. Qed.

Lemma particleCount_pos : (0 < particleCount)%nat.
Proof. unfold particleCount; lia. Qed.

Lemma particle_frame_advances_and_respawns_witness :
  let st' := Scene_frame32 won_page true demo_vel32 demo_rnd64
               (demo_pos32, 0%nat) in
  buffer32_ok demo_pos32 /\ (0 < particleCount)%nat
  /\ buffer32_ok (fst st') /\ py32 (fst st') 0 = (-1)%float.
Proof.
  cbn zeta.
  assert (G : (6 <? to_binary32 (py32 demo_pos32 0 + py32 demo_vel32 0))%float
              = true) by (vm_compute; reflexivity).
  destruct (particle_frame_advances_and_respawns demo_vel32 demo_rnd64
              won_page true demo_pos32 0 0 demo_pos32_ok particleCount_pos)
    as [_ H].
  destruct (H eq_refl eq_refl) as [Hb Hw].
  rewrite G in Hw.
  split; [exact demo_pos32_ok | ]. split; [exact particleCount_pos | ].
  split; [exact Hb | exact (proj1 Hw)].
Defined.

(** C9 as stated fails on the wrap: the particle of the demo frame passes
    the ceiling and lands at (4, -1, 4), not at the origin; no coordinate of
    it is 0, and its height -1 is not a height particles start from. *)
Lemma particle_wrap_not_origin :
  let st' := Scene_frame32 won_page true demo_vel32 demo_rnd64
               (demo_pos32, 0%nat) in
  result won_page = Some win
  /\ buffer32_ok demo_pos32 /\ buffer32_ok demo_vel32
  /\ (6 <? to_binary32 (py32 demo_pos32 0 + py32 demo_vel32 0))%float = true
  /\ px32 (fst st') 0 = 4%float /\ py32 (fst st') 0 = (-1)%float
  /\ pz32 (fst st') 0 = 4%float
  /\ ~ (forall s mounted vel pos rnd n i,
          buffer32_ok pos -> buffer32_ok vel -> (i < particleCount)%nat ->
          result s = Some win -> mounted = true ->
          (6 <? to_binary32 (py32 pos i + py32 vel i))%float = true ->
          let st' := Scene_frame32 s mounted vel rnd (pos, n) in
          (px32 (fst st') i =? 0)%float = true
          /\ (py32 (fst st') i =? 0)%float = true
          /\ (pz32 (fst st') i =? 0)%float = true).
Proof.
  cbn zeta.
  assert (E : py32 (fst (Scene_frame32 won_page true demo_vel32 demo_rnd64
                           (demo_pos32, 0%nat))) 0 = (-1)%float)
    by (vm_compute; reflexivity).
  do 7 (split; [vm_compute; reflexivity | ]).
  intros H.
  specialize (H won_page true demo_vel32 demo_pos32 demo_rnd64 0%nat 0%nat
                demo_pos32_ok ltac:(vm_compute; reflexivity) particleCount_pos
                eq_refl eq_refl ltac:(vm_compute; reflexivity)).
  cbn zeta in H; destruct H as (_ & Hy & _).
  rewrite E in Hy; discriminate Hy.
Qed.

Lemma initParticles_cells_witness :
  buffer32_ok zero_buffer32 /\ (0 < particleCount)%nat
  /\ snd (initParticles32 demo_rnd64 (zero_buffer32, zero_buffer32, 0%nat))
     = 1200%nat.
Proof.
  split; [exact zero_buffer32_ok | ]. split; [exact particleCount_pos | ].
  pose proof (initParticles_cells demo_rnd64 zero_buffer32 zero_buffer32 0 0
                zero_buffer32_ok zero_buffer32_ok particleCount_pos) as H.
  destruct (initParticles32 demo_rnd64 (zero_buffer32, zero_buffer32, 0%nat))
    as [[p v] n'].
  destruct H as (_ & _ & -> & _); reflexivity.
Defined.

Lemma frame_draws_two_per_respawn_witness :
  buffer32_ok demo_pos32
  /\ snd (VictoryParticles_frame32 true true demo_vel32 demo_rnd64
            (demo_pos32, 0%nat)) = 2%nat.
Proof.
  split; [exact demo_pos32_ok | ].
  destruct (frame_draws_two_per_respawn demo_vel32 demo_rnd64 demo_pos32 0
              demo_pos32_ok) as (H & _).
  rewrite H; vm_compute; reflexivity.
Defined.

End Particles32Examples.
